(** * JSON reader ingestion layer of cudf: compressed sources, raw ingestion,
      quote normalization

    A shallow embedding of [cpp/src/io/json/read_json.hpp] and of the
    behaviour its tests exercise.  Sizes are [size_t] values, embedded in [Z]
    with the 64-bit wrap-around of unsigned arithmetic written out; byte
    buffers ([std::vector<uint8_t>], [host_span<uint8_t const>]) are
    [list byte].  Member functions take the object and hand back the updated
    object; exceptions, undefined behaviour and the number of calls made to
    the decompression primitive are threaded by a small monad. *)

From Stdlib Require Import ZArith List Lia Bool.
From Stdlib Require Import Strings.Byte.
Import ListNotations.

Local Open Scope Z_scope.

(** ** Magic numbers ([read_json.hpp], lines 36-40) *)

Definition num_subchunks : Z := 10.
Definition min_subchunk_size : Z := 10000.
Definition estimated_compression_ratio : Z := 4.
Definition max_subchunks_prealloced : Z := 3.

(** ** [size_t] arithmetic *)

Definition size_t_modulus : Z := 2 ^ 64.

Definition size_t_wrap (z : Z) : Z := z mod size_t_modulus.

Definition size_t_sub (a b : Z) : Z := size_t_wrap (a - b).

Definition size_t_add (a b : Z) : Z := size_t_wrap (a + b).

(** [v.size()] and [v.empty()] of a vector or span. *)
Definition vec_size {A : Type} (v : list A) : Z := Z.of_nat (length v).

Definition vec_empty {A : Type} (v : list A) : bool :=
  match v with
  | [] => true
  | _ :: _ => false
  end.

(** The [count] bytes found at [data() + offset]; [None] when that range is
    not inside the vector, where the C++ access has no defined meaning. *)
Definition bytes_at (v : list byte) (offset count : Z) : option (list byte) :=
  if (0 <=? offset) && (0 <=? count) && (offset + count <=? vec_size v)
  then Some (firstn (Z.to_nat count) (skipn (Z.to_nat offset) v))
  else None.

(** ** Compression kinds *)

(** Modelled from the spec: the declaration of [compression_type]
    ([cudf/io/types.hpp]) lies outside the files embedded here; the spec
    lists the kinds as NONE, GZIP, ZIP, SNAPPY and "other". *)
Inductive compression_type : Type :=
| NONE
| GZIP
| ZIP
| SNAPPY
| OTHER.

Definition compression_type_eqb (a b : compression_type) : bool :=
  match a, b with
  | NONE, NONE | GZIP, GZIP | ZIP, ZIP | SNAPPY, SNAPPY | OTHER, OTHER => true
  | _, _ => false
  end.

(** ** Effects *)

(** What a call can do: return, throw, or run into undefined behaviour. *)
Inductive outcome (A : Type) : Type :=
| Returns (a : A)
| Throws
| Undefined.

Arguments Returns {A} a.
Arguments Throws {A}.
Arguments Undefined {A}.

(** A computation carries the number of calls made so far to the
    decompression primitive. *)
Definition M (A : Type) : Type := nat -> outcome (A * nat).

Definition ret {A : Type} (a : A) : M A := fun calls => Returns (a, calls).

Definition bind {A B : Type} (c : M A) (k : A -> M B) : M B :=
  fun calls =>
    match c calls with
    | Returns (a, calls') => k a calls'
    | Throws => Throws
    | Undefined => Undefined
    end.

Definition undefined {A : Type} : M A := fun _ => Undefined.

Notation "x <- c ;; k" := (bind c (fun x => k))
  (at level 61, c at next level, right associativity).

(** [std::memcpy(dst, src.data() + offset, count)]: the bytes that land in
    [dst].  A copy of zero bytes reads nothing, wherever the pointer is. *)
Definition memcpy (src : list byte) (offset count : Z) : M (list byte) :=
  if count =? 0 then ret []
  else
    match bytes_at src offset count with
    | Some copied => ret copied
    | None => undefined
    end.

(** ** Buffers handed to the caller ([datasource::buffer]) *)

Inductive buffer : Type :=
| owning_buffer (storage : list byte) (offset : Z) (count : Z)
    (* owns the moved-in vector, views [count] bytes at [offset] in it *)
| non_owning_buffer (offset : Z) (count : Z).
    (* views [count] bytes at [offset] in the source's [_decompressed_buffer] *)

Definition buffer_size (b : buffer) : Z :=
  match b with
  | owning_buffer _ _ count => count
  | non_owning_buffer _ count => count
  end.

Definition buffer_owns (b : buffer) : bool :=
  match b with
  | owning_buffer _ _ _ => true
  | non_owning_buffer _ _ => false
  end.

(** ** [compressed_host_buffer_source] *)

Record compressed_host_buffer_source : Type := {
  _ch_buffer : list byte;
  _comptype : compression_type;
  _decompressed_ch_buffer_size : Z;
  _decompressed_buffer : list byte
}.

Definition set_decompressed_buffer
    (this : compressed_host_buffer_source) (v : list byte)
  : compressed_host_buffer_source :=
  {| _ch_buffer := _ch_buffer this;
     _comptype := _comptype this;
     _decompressed_ch_buffer_size := _decompressed_ch_buffer_size this;
     _decompressed_buffer := v |}.

(** The bytes a buffer shows; a non-owning buffer aliases the vector held by
    the source it came from.  A buffer whose pointer and count leave the
    vector can be built and returned; it is its bytes that have no defined
    meaning ([None]). *)
Definition buffer_data (this : compressed_host_buffer_source) (b : buffer)
  : option (list byte) :=
  match b with
  | owning_buffer storage offset count => bytes_at storage offset count
  | non_owning_buffer offset count =>
      bytes_at (_decompressed_buffer this) offset count
  end.

(** Modelled from the spec: [estimate_uncompressed_size] is declared in
    [../comp/io_uncomp.hpp], which lies outside the files embedded here; the
    spec describes it as the fixed heuristic multiplier applied to the
    compressed size, without decompressing. *)
Definition estimate_uncompressed_size
    (comptype : compression_type) (src : list byte) : Z :=
  estimated_compression_ratio * vec_size src.

Inductive call : Type :=
| HostReadInto (offset size : Z)   (* host_read(offset, size, dst) *)
| HostRead (offset size : Z).      (* host_read(offset, size) *)

Inductive reply : Type :=
| Copied (count : Z) (dst : list byte)
| Handed (b : buffer).

Section CompressedSource.

(** The decompression primitive of [../comp/io_uncomp.hpp]: a host buffer,
    or [None] when it throws. *)
Variable decompress : compression_type -> list byte -> option (list byte).

Definition call_decompress (comptype : compression_type) (src : list byte)
  : M (list byte) :=
  fun calls =>
    match decompress comptype src with
    | Some v => Returns (v, S calls)
    | None => Throws
    end.

(** The constructor (lines 80-92). *)
Definition construct (ch_buffer : list byte) (comptype : compression_type)
  : M compressed_host_buffer_source :=
  if compression_type_eqb comptype GZIP
     || compression_type_eqb comptype ZIP
     || compression_type_eqb comptype SNAPPY
  then
    ret {| _ch_buffer := ch_buffer;
           _comptype := comptype;
           _decompressed_ch_buffer_size :=
             estimate_uncompressed_size comptype ch_buffer;
           _decompressed_buffer := [] |}
  else
    decompressed <- call_decompress comptype ch_buffer ;;
    ret {| _ch_buffer := ch_buffer;
           _comptype := comptype;
           _decompressed_ch_buffer_size := vec_size decompressed;
           _decompressed_buffer := decompressed |}.

(** [host_read(offset, size, dst)] (lines 94-100): the count returned and
    the bytes copied to [dst]. *)
Definition host_read_into (offset size : Z)
    (this : compressed_host_buffer_source)
  : M (Z * list byte * compressed_host_buffer_source) :=
  decompressed_hbuf <- call_decompress (_comptype this) (_ch_buffer this) ;;
  let count := Z.min size (size_t_sub (vec_size decompressed_hbuf) offset) in
  copied <- memcpy decompressed_hbuf offset count ;;
  ret (count, copied, this).

(** [host_read(offset, size)] (lines 102-115).  The first block either
    returns early ([inl]) or falls through with the updated object
    ([inr]). *)
Definition host_read_fill (offset size : Z)
    (this : compressed_host_buffer_source)
  : M (buffer + compressed_host_buffer_source) :=
  if vec_empty (_decompressed_buffer this) then
    decompressed_hbuf <- call_decompress (_comptype this) (_ch_buffer this) ;;
    let count :=
      Z.min size (size_t_sub (vec_size decompressed_hbuf) offset) in
    let partial_read :=
      size_t_add offset count <? vec_size decompressed_hbuf in
    if negb partial_read
    then ret (inl (owning_buffer decompressed_hbuf offset count))
    else ret (inr (set_decompressed_buffer this decompressed_hbuf))
  else ret (inr this).

Definition host_read (offset size : Z)
    (this : compressed_host_buffer_source)
  : M (buffer * compressed_host_buffer_source) :=
  filled <- host_read_fill offset size this ;;
  match filled with
  | inl handed => ret (handed, this)
  | inr this' =>
      let count :=
        Z.min size
          (size_t_sub (vec_size (_decompressed_buffer this')) offset) in
      ret (non_owning_buffer offset count, this')
  end.

Definition supports_device_read (this : compressed_host_buffer_source)
  : bool := false.

Definition size (this : compressed_host_buffer_source) : Z :=
  _decompressed_ch_buffer_size this.

(** A read call drives the source through a sequence of [host_read]s. *)
Definition invoke (c : call) (this : compressed_host_buffer_source)
  : M (reply * compressed_host_buffer_source) :=
  match c with
  | HostReadInto offset sz =>
      r <- host_read_into offset sz this ;;
      let '(count, copied, this') := r in
      ret (Copied count copied, this')
  | HostRead offset sz =>
      r <- host_read offset sz this ;;
      let '(b, this') := r in
      ret (Handed b, this')
  end.

Fixpoint run (cs : list call) (this : compressed_host_buffer_source)
  : M (list reply * compressed_host_buffer_source) :=
  match cs with
  | [] => ret ([], this)
  | c :: cs' =>
      r <- invoke c this ;;
      let '(rep, this') := r in
      rest <- run cs' this' ;;
      let '(reps, this'') := rest in
      ret (rep :: reps, this'')
  end.

(** The materialized buffer, when there is one, is the decompressed
    content. *)
Definition cache_ok (this : compressed_host_buffer_source) : Prop :=
  _decompressed_buffer this = []
  \/ decompress (_comptype this) (_ch_buffer this)
     = Some (_decompressed_buffer this).

(** The objects a read call can meet: freshly constructed, or reached
    from such an object by [host_read] calls. *)
Inductive reachable : compressed_host_buffer_source -> Prop :=
| reach_construct ch_buffer comptype calls this calls' :
    construct ch_buffer comptype calls = Returns (this, calls') ->
    reachable this
| reach_invoke this c calls rep this' calls' :
    reachable this ->
    invoke c this calls = Returns (rep, this', calls') ->
    reachable this'.

End CompressedSource.

(** ** A decompression primitive to run the model on

    Run-length decoding: the compressed region is a sequence of pairs
    (repetition count, byte); a dangling count is malformed.  Kind [NONE]
    stores the bytes as they are. *)
Fixpoint rle_decode (src : list byte) : option (list byte) :=
  match src with
  | [] => Some []
  | [_] => None
  | n :: b :: rest =>
      match rle_decode rest with
      | Some tail => Some (repeat b (Byte.to_nat n) ++ tail)
      | None => None
      end
  end.

Definition rle_decompress (comptype : compression_type) (src : list byte)
  : option (list byte) :=
  match comptype with
  | NONE => Some src
  | _ => rle_decode src
  end.

(** ** Raw ingestion

    [ingest_raw_input] is only declared in [read_json.hpp] (lines 56-61); its
    body lies outside the files embedded here, and is taken from the contract
    the spec gives for it.  A source is given by its logical byte stream; the
    target buffer is represented by the bytes written to its front, which are
    the returned sub-span. *)

Definition strictly_inside (range_offset range_end p : Z) : bool :=
  (range_offset <? p) && (p <? range_end).

(** Modelled from the spec: the body of [ingest_raw_input], which is missing.
    The bytes of the concatenation of all sources' logical streams over the
    requested range, with one record delimiter byte right after the content
    contributed by each source boundary that falls strictly inside the range.
    [start] is the logical position at which the first of [sources]
    begins. *)
Fixpoint ingest_sources (delimiter : byte) (sources : list (list byte))
    (start range_offset range_end : Z) : list byte :=
  match sources with
  | [] => []
  | src :: rest =>
      let stop := start + vec_size src in
      let lo := Z.max range_offset start in
      let hi := Z.min range_end stop in
      let content :=
        if lo <? hi
        then firstn (Z.to_nat (hi - lo)) (skipn (Z.to_nat (lo - start)) src)
        else [] in
      let boundary :=
        match rest with
        | [] => []
        | _ :: _ =>
            if strictly_inside range_offset range_end stop
            then [delimiter] else []
        end in
      content ++ boundary
        ++ ingest_sources delimiter rest stop range_offset range_end
  end.

Definition total_size (sources : list (list byte)) : Z :=
  fold_right (fun src acc => vec_size src + acc) 0 sources.

(** Modelled from the spec: the entry point [ingest_raw_input], whose body is
    missing.  It fails with a source-exhausted condition when the cumulative
    size of the sources is smaller than the offset, and otherwise returns the
    filled sub-span. *)
Definition ingest_raw_input (delimiter : byte) (sources : list (list byte))
    (compression : compression_type) (range_offset range_size : Z)
  : outcome (list byte) :=
  if total_size sources <? range_offset
  then Throws
  else Returns (ingest_sources delimiter sources 0
                  range_offset (range_offset + range_size)).

(** The quantities the contract speaks of. *)

Definition logical_stream (sources : list (list byte)) : list byte :=
  concat sources.

(** The bytes of the logical stream that lie in the requested range. *)
Definition content_read (sources : list (list byte))
    (range_offset range_size : Z) : list byte :=
  firstn (Z.to_nat range_size)
    (skipn (Z.to_nat range_offset) (logical_stream sources)).

(** The positions, in the logical stream, of the junctions between
    consecutive sources. *)
Definition source_boundaries (sources : list (list byte)) : list Z :=
  map (fun k => vec_size (logical_stream (firstn k sources)))
      (seq 1 (length sources - 1)).

Definition delimiters_inserted (sources : list (list byte))
    (range_offset range_size : Z) : Z :=
  vec_size (filter (strictly_inside range_offset (range_offset + range_size))
              (source_boundaries sources)).

(** The same junctions, walked source by source from position [start]. *)
Fixpoint boundaries_from (start : Z) (sources : list (list byte)) : list Z :=
  match sources with
  | [] => []
  | src :: rest =>
      match rest with
      | [] => []
      | _ :: _ =>
          (start + vec_size src)
            :: boundaries_from (start + vec_size src) rest
      end
  end.

(** ** Quote normalization

    [normalize_quotes] is called by [json_quote_normalization_test.cpp]
    (line 52) but its body lies outside the files embedded here; the
    transducer is taken from the spec, which gives its five states, its
    initial state, and the emission of every byte. *)

Definition double_quote : byte := x22.
Definition single_quote : byte := x27.
Definition backslash : byte := x5c.

Inductive symbol_group : Type :=
| SingleQuote
| DoubleQuote
| Backslash
| OtherSymbol.

Definition classify (b : byte) : symbol_group :=
  if Byte.eqb b single_quote then SingleQuote
  else if Byte.eqb b double_quote then DoubleQuote
  else if Byte.eqb b backslash then Backslash
  else OtherSymbol.

Inductive fst_state : Type :=
| OutsideString
| InsideDoubleQuoted
| InsideSingleQuoted
| EscapePendingInDouble
| EscapePendingInSingle.

(** Modelled from the spec: the transition table of the missing
    [normalize_quotes].  A single quote opens and closes a single-quoted
    string, a backslash inside a string makes the next byte escaped, and any
    byte after it returns to the owning string state; a double quote met
    outside a string opens a double-quoted string and one met inside it
    closes it, as the names of the states say. *)
Definition next_state (s : fst_state) (g : symbol_group) : fst_state :=
  match s, g with
  | OutsideString, SingleQuote => InsideSingleQuoted
  | OutsideString, DoubleQuote => InsideDoubleQuoted
  | OutsideString, _ => OutsideString
  | InsideDoubleQuoted, DoubleQuote => OutsideString
  | InsideDoubleQuoted, Backslash => EscapePendingInDouble
  | InsideDoubleQuoted, _ => InsideDoubleQuoted
  | InsideSingleQuoted, SingleQuote => OutsideString
  | InsideSingleQuoted, Backslash => EscapePendingInSingle
  | InsideSingleQuoted, _ => InsideSingleQuoted
  | EscapePendingInDouble, _ => InsideDoubleQuoted
  | EscapePendingInSingle, _ => InsideSingleQuoted
  end.

(** Modelled from the spec: the emissions of the missing [normalize_quotes].
    A single quote that opens or closes a string comes out as a double quote,
    a double quote inside a single-quoted string comes out escaped, every
    other byte comes out as it is. *)
Definition emit (s : fst_state) (g : symbol_group) (b : byte) : list byte :=
  match s, g with
  | OutsideString, SingleQuote => [double_quote]
  | InsideSingleQuoted, SingleQuote => [double_quote]
  | InsideSingleQuoted, DoubleQuote => [backslash; double_quote]
  | _, _ => [b]
  end.

Fixpoint transduce (s : fst_state) (input : list byte) : list byte :=
  match input with
  | [] => []
  | b :: rest =>
      let g := classify b in
      emit s g b ++ transduce (next_state s g) rest
  end.

(** Modelled from the spec: the missing [normalize_quotes], the transducer
    run from its initial state, outside any string. *)
Definition normalize_quotes (input : list byte) : list byte :=
  transduce OutsideString input.

(** The states in which no single-quoted string is open. *)
Definition strict_state (s : fst_state) : bool :=
  match s with
  | OutsideString | InsideDoubleQuoted | EscapePendingInDouble => true
  | InsideSingleQuoted | EscapePendingInSingle => false
  end.

(** The buffers of [JsonNormalizationTest.ValidOutput]: the input of line 45,
    and the strict form of it. *)
Definition test_input : list byte :=
  [x7b; double_quote; x41; double_quote; x3a;
   single_quote; x54; x45; x53; x54; double_quote; single_quote; x7d].

Definition test_output : list byte :=
  [x7b; double_quote; x41; double_quote; x3a;
   double_quote; x54; x45; x53; x54; backslash; double_quote; double_quote;
   x7d].

(** ** Sequences of reads

    What a read call asks of a source, and what it gets back. *)



Definition is_host_read_into (c : call) : bool :=
  match c with
  | HostReadInto _ _ => true
  | HostRead _ _ => false
  end.





(** Buffer-returning reads, one per (offset, size) pair. *)
Definition host_reads (ranges : list (Z * Z)) : list call :=
  map (fun r => HostRead (fst r) (snd r)) ranges.

(** The one change a call can make to the object: to fill the materialized
    buffer, so far empty, with non-empty decompressed content. *)
Definition materializes
    (decompress : compression_type -> list byte -> option (list byte))
    (this this' : compressed_host_buffer_source) : Prop :=
  _decompressed_buffer this = []
  /\ exists d,
       d <> []
       /\ decompress (_comptype this) (_ch_buffer this) = Some d
       /\ this' = set_decompressed_buffer this d.

(** The views a populated source hands out for a list of ranges. *)
Definition views_of (cache : list byte) (ranges : list (Z * Z)) : list reply :=
  map (fun r =>
         Handed (non_owning_buffer (fst r)
                   (Z.min (snd r) (size_t_sub (vec_size cache) (fst r)))))
      ranges.

(** The handovers a source gives for ranges that reach the end of [d]. *)
Definition handovers (d : list byte) (ranges : list (Z * Z)) : list reply :=
  map (fun r => Handed (owning_buffer d (fst r) (vec_size d - fst r))) ranges.

(** The range starts inside [d] and reaches its end. *)
Definition reaches_end (d : list byte) (r : Z * Z) : Prop :=
  0 <= fst r <= vec_size d /\ vec_size d <= fst r + snd r.

(** Two sources to run the model on: a GZIP source over 2 compressed bytes
    that decode to 3, as constructed and after a read has populated its
    materialized buffer. *)
Definition sample_lazy : compressed_host_buffer_source :=
  {| _ch_buffer := [x03; x61];
     _comptype := GZIP;
     _decompressed_ch_buffer_size := 8;
     _decompressed_buffer := [] |}.

Definition sample_populated : compressed_host_buffer_source :=
  set_decompressed_buffer sample_lazy [x61; x61; x61].

(** A GZIP source over an empty compressed region, whose content is empty. *)
Definition sample_empty : compressed_host_buffer_source :=
  {| _ch_buffer := [];
     _comptype := GZIP;
     _decompressed_ch_buffer_size := 0;
     _decompressed_buffer := [] |}.

(** The handovers a source with empty content gives, whatever the ranges. *)
Definition empty_handovers (ranges : list (Z * Z)) : list reply :=
  map (fun r =>
         Handed (owning_buffer [] (fst r)
                   (Z.min (snd r) (size_t_sub 0 (fst r)))))
      ranges.

(** Two sizes neither of which exceeds the heuristic multiplier times the
    other. *)
Definition within_multiplier (a b : Z) : Prop :=
  a <= estimated_compression_ratio * b /\ b <= estimated_compression_ratio * a.

(** ** The data generator of [JsonLargeReaderTest.MultiBatch]
    ([json_tests.cpp], lines 74-78) *)

Definition newline : byte := x0a.

(** The loop body runs [log_repetitions] times: the string is doubled around
    a newline and the [size_t] row count is shifted left by one. *)
Fixpoint multi_batch_loop (log_repetitions : nat)
    (json_string : list byte) (numrows : Z) : list byte * Z :=
  match log_repetitions with
  | O => (json_string, numrows)
  | S remaining =>
      multi_batch_loop remaining
        (json_string ++ [newline] ++ json_string)
        (size_t_wrap (Z.shiftl numrows 1))
  end.

(** Blocks written one after the other with a newline between neighbours. *)
Definition join_lines (blocks : list (list byte)) : list byte :=
  match blocks with
  | [] => []
  | b :: rest => b ++ concat (map (cons newline) rest)
  end.

(** * Facts *)

(** ** Sizes and byte ranges *)

Lemma vec_size_nonneg {A : Type} (v : list A) : 0 <= vec_size v.
Proof. unfold vec_size. lia. Qed.

Lemma vec_empty_true {A : Type} (v : list A) : vec_empty v = true <-> v = [].
Proof. destruct v; simpl; split; congruence. Qed.

Lemma size_t_sub_exact (a b : Z) :
  0 <= b <= a -> a < size_t_modulus -> size_t_sub a b = a - b.
Proof.
  intros Hb Ha. unfold size_t_sub, size_t_wrap.
  apply Z.mod_small. lia.
Qed.

Lemma size_t_add_exact (a b : Z) :
  0 <= a + b < size_t_modulus -> size_t_add a b = a + b.
Proof. intros H. unfold size_t_add, size_t_wrap. now apply Z.mod_small. Qed.

Lemma bytes_at_inside (v : list byte) (offset count : Z) :
  0 <= offset -> 0 <= count -> offset + count <= vec_size v ->
  bytes_at v offset count
  = Some (firstn (Z.to_nat count) (skipn (Z.to_nat offset) v)).
Proof.
  intros Ho Hc Hv. unfold bytes_at.
  replace (0 <=? offset) with true by (symmetry; now apply Z.leb_le).
  replace (0 <=? count) with true by (symmetry; now apply Z.leb_le).
  replace (offset + count <=? vec_size v) with true
    by (symmetry; now apply Z.leb_le).
  reflexivity.
Qed.

Lemma vec_size_slice (v : list byte) (offset count : Z) :
  0 <= offset -> 0 <= count -> offset + count <= vec_size v ->
  vec_size (firstn (Z.to_nat count) (skipn (Z.to_nat offset) v)) = count.
Proof.
  unfold vec_size. intros Ho Hc Hv.
  rewrite length_firstn, length_skipn. lia.
Qed.

(** The count both overloads compute, when the offset is inside the
    decompressed content. *)
Lemma clamped_count (d : list byte) (offset sz : Z) :
  0 <= offset <= vec_size d -> vec_size d < size_t_modulus -> 0 <= sz ->
  let count := Z.min sz (size_t_sub (vec_size d) offset) in
  count = Z.min sz (vec_size d - offset)
  /\ 0 <= count /\ offset + count <= vec_size d.
Proof.
  intros Ho Hd Hs. cbv zeta.
  rewrite size_t_sub_exact by lia. lia.
Qed.

Section CompressedSourceFacts.

Variable decompress : compression_type -> list byte -> option (list byte).

#[local] Abbreviation host_read_into := (host_read_into decompress).
#[local] Abbreviation host_read := (host_read decompress).
#[local] Abbreviation construct := (construct decompress).
#[local] Abbreviation invoke := (invoke decompress).
#[local] Abbreviation run := (run decompress).
#[local] Abbreviation cache_ok := (cache_ok decompress).

(** *** The raw-pointer overload *)

Lemma host_read_into_returns this d offset sz calls :
  decompress (_comptype this) (_ch_buffer this) = Some d ->
  0 <= offset <= vec_size d -> vec_size d < size_t_modulus -> 0 <= sz ->
  host_read_into offset sz this calls
  = Returns (Z.min sz (vec_size d - offset),
             firstn (Z.to_nat (Z.min sz (vec_size d - offset)))
               (skipn (Z.to_nat offset) d),
             this, S calls).
Proof.
  intros Hd Ho Hlen Hs.
  destruct (clamped_count d offset sz Ho Hlen Hs) as (Hc & Hc0 & Hc1).
  unfold host_read_into, bind, call_decompress, memcpy.
  rewrite Hd, Hc.
  destruct (Z.eqb_spec (Z.min sz (vec_size d - offset)) 0) as [Hz|Hz].
  - now rewrite Hz.
  - rewrite bytes_at_inside by lia. reflexivity.
Qed.

Lemma host_read_into_throws this offset sz calls :
  host_read_into offset sz this calls = Throws
  <-> decompress (_comptype this) (_ch_buffer this) = None.
Proof.
  unfold host_read_into, bind, call_decompress, memcpy, undefined, ret.
  destruct (decompress _ _) as [d|]; [|tauto].
  destruct (_ =? 0); [split; discriminate|].
  destruct (bytes_at _ _ _); split; discriminate.
Qed.

Lemma host_read_into_calls this offset sz calls r calls' :
  host_read_into offset sz this calls = Returns (r, calls') ->
  calls' = S calls /\ snd r = this.
Proof.
  unfold host_read_into, bind, call_decompress, memcpy, undefined, ret.
  destruct (decompress _ _) as [d|]; [|discriminate].
  destruct (_ =? 0).
  - intros H. inversion H. subst. simpl. auto.
  - destruct (bytes_at _ _ _); [|discriminate].
    intros H. inversion H. subst. simpl. auto.
Qed.

(** *** The buffer-returning overload *)

(** With a materialized buffer in place the call is a pure view of it. *)
Lemma host_read_cached this offset sz calls :
  _decompressed_buffer this <> [] ->
  host_read offset sz this calls
  = Returns (non_owning_buffer offset
               (Z.min sz
                  (size_t_sub (vec_size (_decompressed_buffer this)) offset)),
             this, calls).
Proof.
  intros Hne. unfold host_read, host_read_fill, bind, ret.
  destruct (_decompressed_buffer this) eqn:E; [congruence|].
  cbn [vec_empty]. now rewrite E.
Qed.

(** Without one, the call decompresses and decides by [partial_read]. *)
Lemma host_read_fresh this d offset sz calls :
  _decompressed_buffer this = [] ->
  decompress (_comptype this) (_ch_buffer this) = Some d ->
  let count := Z.min sz (size_t_sub (vec_size d) offset) in
  host_read offset sz this calls
  = if size_t_add offset count <? vec_size d
    then Returns (non_owning_buffer offset count,
                  set_decompressed_buffer this d, S calls)
    else Returns (owning_buffer d offset count, this, S calls).
Proof.
  intros He Hd. cbv zeta.
  unfold host_read, host_read_fill, bind, ret, call_decompress.
  rewrite He, Hd. simpl.
  destruct (size_t_add _ _ <? vec_size d); reflexivity.
Qed.

Lemma host_read_throws this offset sz calls :
  host_read offset sz this calls = Throws
  <-> _decompressed_buffer this = []
      /\ decompress (_comptype this) (_ch_buffer this) = None.
Proof.
  destruct (_decompressed_buffer this) as [|b v] eqn:E.
  - destruct (decompress (_comptype this) (_ch_buffer this)) as [d|] eqn:Hd.
    + rewrite (host_read_fresh this d offset sz calls E Hd).
      destruct (_ <? _); split; [discriminate|intros [_ H]; discriminate
                                |discriminate|intros [_ H]; discriminate].
    + unfold host_read, host_read_fill, bind, call_decompress.
      rewrite E, Hd. simpl. tauto.
  - rewrite host_read_cached by congruence.
    split; [discriminate|intros [H _]; discriminate].
Qed.

Lemma host_read_returns this d offset sz calls :
  cache_ok this ->
  decompress (_comptype this) (_ch_buffer this) = Some d ->
  0 <= offset <= vec_size d -> vec_size d < size_t_modulus -> 0 <= sz ->
  exists b this' calls',
    host_read offset sz this calls = Returns (b, this', calls')
    /\ buffer_size b = Z.min sz (vec_size d - offset)
    /\ buffer_data this' b
       = Some (firstn (Z.to_nat (Z.min sz (vec_size d - offset)))
                 (skipn (Z.to_nat offset) d)).
Proof.
  intros Hok Hd Ho Hlen Hs.
  destruct (clamped_count d offset sz Ho Hlen Hs) as (Hc & Hc0 & Hc1).
  destruct (_decompressed_buffer this) as [|b0 v] eqn:E.
  - rewrite (host_read_fresh this d offset sz calls E Hd).
    destruct (_ <? _); do 3 eexists; (split; [reflexivity|]); simpl;
      rewrite Hc; (split; [reflexivity|]);
      apply bytes_at_inside; lia.
  - destruct Hok as [Hok|Hok]; [congruence|].
    rewrite Hd in Hok. injection Hok as Hok.
    rewrite host_read_cached by congruence.
    do 3 eexists. split; [reflexivity|]. simpl.
    rewrite <- Hok, Hc. split; [reflexivity|].
    apply bytes_at_inside; lia.
Qed.

End CompressedSourceFacts.

Section CompressedSourceInvariants.

Variable decompress : compression_type -> list byte -> option (list byte).

#[local] Abbreviation cache_ok := (cache_ok decompress).
#[local] Abbreviation reachable := (reachable decompress).

(** What a [host_read] leaves behind: the object as it was, or the object
    with the decompressed content now materialized. *)
Lemma host_read_object this offset sz calls b this' calls' :
  host_read decompress offset sz this calls = Returns (b, this', calls') ->
  this' = this
  \/ exists d,
       _decompressed_buffer this = []
       /\ decompress (_comptype this) (_ch_buffer this) = Some d
       /\ this' = set_decompressed_buffer this d.
Proof.
  destruct (_decompressed_buffer this) as [|b0 v] eqn:E.
  - destruct (decompress (_comptype this) (_ch_buffer this)) as [d|] eqn:Hd.
    + rewrite (host_read_fresh decompress this d offset sz calls E Hd).
      destruct (_ <? _); intros H; inversion H; subst; eauto.
    + intros H.
      assert (Ht : host_read decompress offset sz this calls = Throws)
        by (apply host_read_throws; auto).
      congruence.
  - rewrite host_read_cached by congruence.
    intros H; inversion H; auto.
Qed.

Lemma invoke_object c this calls rep this' calls' :
  invoke decompress c this calls = Returns (rep, this', calls') ->
  this' = this
  \/ exists d,
       _decompressed_buffer this = []
       /\ decompress (_comptype this) (_ch_buffer this) = Some d
       /\ this' = set_decompressed_buffer this d.
Proof.
  destruct c as [offset sz|offset sz]; unfold invoke, bind, ret.
  - destruct (host_read_into decompress offset sz this calls)
      as [[[[count copied] this1] calls1]| |] eqn:E; try discriminate.
    apply host_read_into_calls in E. simpl in E. destruct E as [_ E].
    intros H; inversion H; subst; auto.
  - destruct (host_read decompress offset sz this calls)
      as [[[b this1] calls1]| |] eqn:E; try discriminate.
    apply host_read_object in E.
    intros H; inversion H; subst; auto.
Qed.

Lemma invoke_size c this calls rep this' calls' :
  invoke decompress c this calls = Returns (rep, this', calls') ->
  size this' = size this.
Proof.
  intros H. apply invoke_object in H.
  destruct H as [->|(d & _ & _ & ->)]; reflexivity.
Qed.

Lemma invoke_cache_ok c this calls rep this' calls' :
  invoke decompress c this calls = Returns (rep, this', calls') ->
  cache_ok this -> cache_ok this'.
Proof.
  intros H Hok. apply invoke_object in H.
  destruct H as [->|(d & _ & Hd & ->)]; [assumption|].
  right. exact Hd.
Qed.

Lemma construct_cache_ok ch_buffer comptype calls this calls' :
  construct decompress ch_buffer comptype calls = Returns (this, calls') ->
  cache_ok this.
Proof.
  unfold construct, bind, ret, call_decompress.
  destruct (_ || _).
  - intros H; inversion H; subst. now left.
  - destruct (decompress comptype ch_buffer) as [d|] eqn:Hd; [|discriminate].
    intros H; inversion H; subst. right. exact Hd.
Qed.

Lemma reachable_cache_ok this : reachable this -> cache_ok this.
Proof.
  induction 1 as [ch ct calls this calls' Hc|this c calls rep this' calls' _ IH Hi].
  - eapply construct_cache_ok; eassumption.
  - eapply invoke_cache_ok; eassumption.
Qed.

Lemma run_size cs : forall this calls reps this' calls',
  run decompress cs this calls = Returns (reps, this', calls') ->
  size this' = size this.
Proof.
  induction cs as [|c cs IH]; intros this calls reps this' calls'; simpl.
  - unfold ret. intros H; inversion H; reflexivity.
  - unfold bind at 1.
    destruct (invoke decompress c this calls)
      as [[[rep this1] calls1]| |] eqn:Ei; try discriminate.
    unfold bind, ret.
    destruct (run decompress cs this1 calls1)
      as [[[reps1 this2] calls2]| |] eqn:Er; try discriminate.
    intros H; inversion H; subst.
    rewrite (IH _ _ _ _ _ Er). eapply invoke_size; eassumption.
Qed.

Lemma run_reachable cs : forall this calls reps this' calls',
  run decompress cs this calls = Returns (reps, this', calls') ->
  reachable this -> reachable this'.
Proof.
  induction cs as [|c cs IH]; intros this calls reps this' calls'; simpl.
  - unfold ret. intros H; inversion H; subst; auto.
  - unfold bind at 1.
    destruct (invoke decompress c this calls)
      as [[[rep this1] calls1]| |] eqn:Ei; try discriminate.
    unfold bind, ret.
    destruct (run decompress cs this1 calls1)
      as [[[reps1 this2] calls2]| |] eqn:Er; try discriminate.
    intros H Hr; inversion H; subst.
    eapply IH; [eassumption|]. eapply reach_invoke; eassumption.
Qed.

End CompressedSourceInvariants.

(** The two branches of the constructor. *)
Lemma construct_lazy
    (decompress : compression_type -> list byte -> option (list byte))
    (ch_buffer : list byte) (comptype : compression_type) (calls : nat) :
  comptype = GZIP \/ comptype = ZIP \/ comptype = SNAPPY ->
  construct decompress ch_buffer comptype calls
  = Returns ({| _ch_buffer := ch_buffer;
                _comptype := comptype;
                _decompressed_ch_buffer_size :=
                  estimated_compression_ratio * vec_size ch_buffer;
                _decompressed_buffer := [] |}, calls).
Proof. intros [ -> | [ -> | -> ] ]; reflexivity. Qed.

Lemma construct_eager
    (decompress : compression_type -> list byte -> option (list byte))
    (ch_buffer : list byte) (comptype : compression_type) (calls : nat) :
  comptype <> GZIP /\ comptype <> ZIP /\ comptype <> SNAPPY ->
  construct decompress ch_buffer comptype calls
  = match decompress comptype ch_buffer with
    | Some d =>
        Returns ({| _ch_buffer := ch_buffer;
                    _comptype := comptype;
                    _decompressed_ch_buffer_size := vec_size d;
                    _decompressed_buffer := d |}, S calls)
    | None => Throws
    end.
Proof.
  intros (Hg & Hz & Hs). unfold construct, bind, call_decompress, ret.
  destruct comptype; try congruence; simpl;
    destruct (decompress _ ch_buffer); reflexivity.
Qed.

(** * The claims about the compressed source *)

(** C1, as the code has it.  Neither [host_read] overload compares the offset
    with [size()]: a call fails only when the decompression primitive does.
    When the offset does not exceed the exact decompressed length, both
    overloads return exactly [min(length, decompressed length - offset)]
    bytes, the ones found at the offset in the decompressed content; fewer
    than [length] only when [offset + length] exceeds the decompressed
    length. *)
Theorem host_read_clamps_to_decompressed_length
    (decompress : compression_type -> list byte -> option (list byte))
    (this : compressed_host_buffer_source) (offset sz : Z) (calls : nat) :
  reachable decompress this ->
  (host_read_into decompress offset sz this calls = Throws
   <-> decompress (_comptype this) (_ch_buffer this) = None)
  /\ (host_read decompress offset sz this calls = Throws
      <-> _decompressed_buffer this = []
          /\ decompress (_comptype this) (_ch_buffer this) = None)
  /\ forall d,
       decompress (_comptype this) (_ch_buffer this) = Some d ->
       0 <= offset <= vec_size d -> vec_size d < size_t_modulus -> 0 <= sz ->
       let count := Z.min sz (vec_size d - offset) in
       let content :=
         firstn (Z.to_nat count) (skipn (Z.to_nat offset) d) in
       host_read_into decompress offset sz this calls
       = Returns (count, content, this, S calls)
       /\ (exists b this' calls',
             host_read decompress offset sz this calls
             = Returns (b, this', calls')
             /\ buffer_size b = count
             /\ buffer_data this' b = Some content)
       /\ vec_size content = count
       /\ count <= sz
       /\ (count < sz -> vec_size d < offset + sz).
Proof.
  intros Hr. split; [apply host_read_into_throws|].
  split; [apply host_read_throws|].
  intros d Hd Ho Hlen Hs. cbv zeta.
  split; [now apply host_read_into_returns|].
  split; [apply host_read_returns; auto using reachable_cache_ok|].
  split; [apply vec_size_slice; lia|].
  lia.
Qed.

(** A GZIP source whose 2 compressed bytes decode to 20 bytes reports
    [size() = 8]; reading 3 bytes at offset 10 is inside the content. *)
Lemma host_read_clamps_to_decompressed_length_witness :
  host_read_into rle_decompress 10 3
    {| _ch_buffer := [x14; x61]; _comptype := GZIP;
       _decompressed_ch_buffer_size := 8; _decompressed_buffer := [] |} 0%nat
  = Returns (3, [x61; x61; x61],
             {| _ch_buffer := [x14; x61]; _comptype := GZIP;
                _decompressed_ch_buffer_size := 8;
                _decompressed_buffer := [] |}, 1%nat).
Proof.
  assert (Hr : reachable rle_decompress
                 {| _ch_buffer := [x14; x61]; _comptype := GZIP;
                    _decompressed_ch_buffer_size := 8;
                    _decompressed_buffer := [] |})
    by (apply (reach_construct rle_decompress [x14; x61] GZIP 0%nat _ 0%nat);
        reflexivity).
  destruct (host_read_clamps_to_decompressed_length
              rle_decompress _ 10 3 0%nat Hr) as (_ & _ & H).
  specialize (H (repeat x61 20) eq_refl).
  destruct H as (H & _).
  - vm_compute. split; discriminate.
  - reflexivity.
  - discriminate.
  - exact H.
Defined.

(** C1 as stated fails.  On an eagerly decompressed 3-byte source, where
    [size()] is exact, a [host_read(5, 1)] throws nothing: it returns a
    1-byte view placed beyond the content, and [host_read(5, 1, dst)] copies
    from beyond the content.  On a GZIP source with [size() = 8] whose content
    has 20 bytes, reads at offset 10 succeed; on one whose content has 2
    bytes, a read of 5 bytes at offset 0 yields 2 bytes although
    [0 + 5 <= size()]. *)
Lemma host_read_offset_beyond_size_counterexample :
  let eager := {| _ch_buffer := [x61; x62; x63]; _comptype := NONE;
                  _decompressed_ch_buffer_size := 3;
                  _decompressed_buffer := [x61; x62; x63] |} in
  let far := {| _ch_buffer := [x14; x61]; _comptype := GZIP;
                _decompressed_ch_buffer_size := 8;
                _decompressed_buffer := [] |} in
  let short := {| _ch_buffer := [x02; x61]; _comptype := GZIP;
                  _decompressed_ch_buffer_size := 8;
                  _decompressed_buffer := [] |} in
  (construct rle_decompress [x61; x62; x63] NONE 0%nat
   = Returns (eager, 1%nat)
   /\ size eager < 5
   /\ host_read rle_decompress 5 1 eager 1%nat
      = Returns (non_owning_buffer 5 1, eager, 1%nat)
   /\ buffer_data eager (non_owning_buffer 5 1) = None
   /\ host_read_into rle_decompress 5 1 eager 1%nat = Undefined)
  /\ (construct rle_decompress [x14; x61] GZIP 0%nat = Returns (far, 0%nat)
      /\ size far < 10
      /\ host_read_into rle_decompress 10 3 far 0%nat
         = Returns (3, [x61; x61; x61], far, 1%nat)
      /\ exists b this',
           host_read rle_decompress 10 3 far 0%nat
           = Returns (b, this', 1%nat)
           /\ buffer_data this' b = Some [x61; x61; x61])
  /\ (construct rle_decompress [x02; x61] GZIP 0%nat
      = Returns (short, 0%nat)
      /\ 0 + 5 <= size short
      /\ host_read_into rle_decompress 0 5 short 0%nat
         = Returns (2, [x61; x61], short, 1%nat)
      /\ exists b this',
           host_read rle_decompress 0 5 short 0%nat
           = Returns (b, this', 1%nat)
           /\ buffer_size b = 2).
Proof.
  cbv zeta. repeat split; try reflexivity; try discriminate.
  - exists (non_owning_buffer 10 3).
    exists {| _ch_buffer := [x14; x61]; _comptype := GZIP;
              _decompressed_ch_buffer_size := 8;
              _decompressed_buffer := repeat x61 20 |}.
    split; reflexivity.
  - exists (owning_buffer [x61; x61] 0 2).
    exists {| _ch_buffer := [x02; x61]; _comptype := GZIP;
              _decompressed_ch_buffer_size := 8;
              _decompressed_buffer := [] |}.
    split; reflexivity.
Qed.

(** C10.  On every object a read call can meet, and for every offset not
    beyond the exact decompressed length, the count returned by
    [host_read(offset, size, dst)] is the size of the buffer returned by
    [host_read(offset, size)], and the bytes copied to [dst] are the bytes of
    that buffer, whether the latter decompresses afresh or serves the
    materialized buffer. *)
Theorem host_read_overloads_agree
    (decompress : compression_type -> list byte -> option (list byte))
    (this : compressed_host_buffer_source) (d : list byte)
    (offset sz : Z) (calls : nat) :
  reachable decompress this ->
  decompress (_comptype this) (_ch_buffer this) = Some d ->
  0 <= offset <= vec_size d -> vec_size d < size_t_modulus -> 0 <= sz ->
  exists count copied b this' calls1 calls2,
    host_read_into decompress offset sz this calls
    = Returns (count, copied, this, calls1)
    /\ host_read decompress offset sz this calls = Returns (b, this', calls2)
    /\ buffer_size b = count
    /\ buffer_data this' b = Some copied.
Proof.
  intros Hr Hd Ho Hlen Hs.
  destruct (host_read_returns decompress this d offset sz calls
              (reachable_cache_ok _ _ Hr) Hd Ho Hlen Hs)
    as (b & this' & calls2 & Hread & Hsize & Hdata).
  exists (Z.min sz (vec_size d - offset)).
  exists (firstn (Z.to_nat (Z.min sz (vec_size d - offset)))
            (skipn (Z.to_nat offset) d)).
  exists b, this', (S calls), calls2.
  split; [now apply host_read_into_returns|]. auto.
Qed.

(** The source of the witness above, after a 1-byte read has materialized its
    20 decompressed bytes: both overloads deliver the same 3 bytes. *)
Lemma host_read_overloads_agree_witness :
  exists count copied b this' calls1 calls2,
    host_read_into rle_decompress 10 3
      {| _ch_buffer := [x14; x61]; _comptype := GZIP;
         _decompressed_ch_buffer_size := 8;
         _decompressed_buffer := repeat x61 20 |} 1%nat
    = Returns (count, copied,
               {| _ch_buffer := [x14; x61]; _comptype := GZIP;
                  _decompressed_ch_buffer_size := 8;
                  _decompressed_buffer := repeat x61 20 |}, calls1)
    /\ host_read rle_decompress 10 3
         {| _ch_buffer := [x14; x61]; _comptype := GZIP;
            _decompressed_ch_buffer_size := 8;
            _decompressed_buffer := repeat x61 20 |} 1%nat
       = Returns (b, this', calls2)
    /\ buffer_size b = count
    /\ buffer_data this' b = Some copied.
Proof.
  apply (host_read_overloads_agree rle_decompress _ (repeat x61 20)).
  - apply (reach_invoke rle_decompress
             {| _ch_buffer := [x14; x61]; _comptype := GZIP;
                _decompressed_ch_buffer_size := 8;
                _decompressed_buffer := [] |}
             (HostRead 0 1) 0%nat (Handed (non_owning_buffer 0 1)) _ 1%nat).
    + apply (reach_construct rle_decompress [x14; x61] GZIP 0%nat _ 0%nat).
      reflexivity.
    + reflexivity.
  - reflexivity.
  - vm_compute. split; discriminate.
  - reflexivity.
  - discriminate.
Defined.

(** C3, as the code has it.  On a source with no materialized buffer, the
    buffer-returning [host_read] decompresses once; when the requested range
    reaches the end of the decompressed content ([partial_read] is false) the
    decompressed vector is moved into the returned owning buffer and nothing
    is cached; when the range stops short of the end, which is the case of
    every strict prefix, the decompressed vector is retained in the source
    and the caller gets a view of it. *)
Theorem host_read_hands_over_unless_partial
    (decompress : compression_type -> list byte -> option (list byte))
    (this : compressed_host_buffer_source) (d : list byte)
    (offset sz : Z) (calls : nat) :
  _decompressed_buffer this = [] ->
  decompress (_comptype this) (_ch_buffer this) = Some d ->
  0 <= offset <= vec_size d -> vec_size d < size_t_modulus -> 0 <= sz ->
  (vec_size d <= offset + sz ->
   host_read decompress offset sz this calls
   = Returns (owning_buffer d offset (vec_size d - offset), this, S calls))
  /\ (offset + sz < vec_size d ->
      host_read decompress offset sz this calls
      = Returns (non_owning_buffer offset sz,
                 set_decompressed_buffer this d, S calls)).
Proof.
  intros He Hd Ho Hlen Hs.
  pose proof (host_read_fresh decompress this d offset sz calls He Hd) as H.
  cbv zeta in H.
  destruct (clamped_count d offset sz Ho Hlen Hs) as (Hc & Hc0 & Hc1).
  rewrite Hc in H.
  rewrite size_t_add_exact in H by lia.
  split; intros Hcmp.
  - replace (Z.min sz (vec_size d - offset)) with (vec_size d - offset) in H
      by lia.
    replace (offset + (vec_size d - offset) <? vec_size d) with false in H
      by (symmetry; apply Z.ltb_ge; lia).
    exact H.
  - replace (Z.min sz (vec_size d - offset)) with sz in H by lia.
    replace (offset + sz <? vec_size d) with true in H
      by (symmetry; apply Z.ltb_lt; lia).
    exact H.
Qed.

Lemma host_read_hands_over_unless_partial_witness :
  host_read rle_decompress 1 5
    {| _ch_buffer := [x03; x61]; _comptype := GZIP;
       _decompressed_ch_buffer_size := 8; _decompressed_buffer := [] |} 0%nat
  = Returns (owning_buffer [x61; x61; x61] 1 2,
             {| _ch_buffer := [x03; x61]; _comptype := GZIP;
                _decompressed_ch_buffer_size := 8;
                _decompressed_buffer := [] |}, 1%nat)
  /\ host_read rle_decompress 0 1
       {| _ch_buffer := [x03; x61]; _comptype := GZIP;
          _decompressed_ch_buffer_size := 8; _decompressed_buffer := [] |}
       0%nat
     = Returns (non_owning_buffer 0 1,
                {| _ch_buffer := [x03; x61]; _comptype := GZIP;
                   _decompressed_ch_buffer_size := 8;
                   _decompressed_buffer := [x61; x61; x61] |}, 1%nat).
Proof.
  split.
  - apply (host_read_hands_over_unless_partial rle_decompress
             {| _ch_buffer := [x03; x61]; _comptype := GZIP;
                _decompressed_ch_buffer_size := 8;
                _decompressed_buffer := [] |} [x61; x61; x61] 1 5 0%nat);
      try reflexivity; try discriminate.
    vm_compute. split; discriminate.
  - apply (host_read_hands_over_unless_partial rle_decompress
             {| _ch_buffer := [x03; x61]; _comptype := GZIP;
                _decompressed_ch_buffer_size := 8;
                _decompressed_buffer := [] |} [x61; x61; x61] 0 1 0%nat);
      try reflexivity; try discriminate.
    vm_compute. split; discriminate.
Defined.

(** C3 as stated fails: reading the strict prefix (offset 0, length 1) of a
    3-byte content hands out a non-owning view and leaves the decompressed
    bytes cached; reading the whole content, which is not a strict prefix,
    hands the vector over and caches nothing. *)
Lemma strict_prefix_read_counterexample :
  let this := {| _ch_buffer := [x03; x61]; _comptype := GZIP;
                 _decompressed_ch_buffer_size := 8;
                 _decompressed_buffer := [] |} in
  rle_decompress GZIP [x03; x61] = Some [x61; x61; x61]
  /\ (exists b this',
        host_read rle_decompress 0 1 this 0%nat = Returns (b, this', 1%nat)
        /\ buffer_owns b = false
        /\ _decompressed_buffer this' = [x61; x61; x61])
  /\ (exists b this',
        host_read rle_decompress 0 3 this 0%nat = Returns (b, this', 1%nat)
        /\ buffer_owns b = true
        /\ _decompressed_buffer this' = []).
Proof.
  cbv zeta. split; [reflexivity|]. split.
  - exists (non_owning_buffer 0 1).
    exists {| _ch_buffer := [x03; x61]; _comptype := GZIP;
              _decompressed_ch_buffer_size := 8;
              _decompressed_buffer := [x61; x61; x61] |}.
    repeat split.
  - exists (owning_buffer [x61; x61; x61] 0 3).
    exists {| _ch_buffer := [x03; x61]; _comptype := GZIP;
              _decompressed_ch_buffer_size := 8;
              _decompressed_buffer := [] |}.
    repeat split.
Qed.

(** C5.  Constructing a GZIP, ZIP or SNAPPY source calls no decompression:
    the reported size is 4 times the compressed size and the materialized
    buffer is empty.  For every other kind the constructor decompresses at
    once (and throws if the primitive does); the reported size is the exact
    decompressed length and the content is materialized. *)
Theorem construct_estimates_or_decompresses
    (decompress : compression_type -> list byte -> option (list byte))
    (ch_buffer : list byte) (comptype : compression_type) (calls : nat) :
  (comptype = GZIP \/ comptype = ZIP \/ comptype = SNAPPY ->
   construct decompress ch_buffer comptype calls
   = Returns ({| _ch_buffer := ch_buffer;
                 _comptype := comptype;
                 _decompressed_ch_buffer_size := 4 * vec_size ch_buffer;
                 _decompressed_buffer := [] |}, calls))
  /\ (comptype <> GZIP /\ comptype <> ZIP /\ comptype <> SNAPPY ->
      match decompress comptype ch_buffer with
      | Some d =>
          construct decompress ch_buffer comptype calls
          = Returns ({| _ch_buffer := ch_buffer;
                        _comptype := comptype;
                        _decompressed_ch_buffer_size := vec_size d;
                        _decompressed_buffer := d |}, S calls)
      | None => construct decompress ch_buffer comptype calls = Throws
      end).
Proof.
  split.
  - apply construct_lazy.
  - intros Hk. rewrite (construct_eager decompress ch_buffer comptype calls Hk).
    destruct (decompress comptype ch_buffer); reflexivity.
Qed.

Lemma construct_estimates_or_decompresses_witness :
  construct rle_decompress [x03; x61] SNAPPY 0%nat
  = Returns ({| _ch_buffer := [x03; x61]; _comptype := SNAPPY;
                _decompressed_ch_buffer_size := 8;
                _decompressed_buffer := [] |}, 0%nat)
  /\ construct rle_decompress [x03; x61] OTHER 0%nat
     = Returns ({| _ch_buffer := [x03; x61]; _comptype := OTHER;
                   _decompressed_ch_buffer_size := 3;
                   _decompressed_buffer := [x61; x61; x61] |}, 1%nat).
Proof.
  destruct (construct_estimates_or_decompresses
              rle_decompress [x03; x61] SNAPPY 0%nat) as [Hlazy _].
  destruct (construct_estimates_or_decompresses
              rle_decompress [x03; x61] OTHER 0%nat) as [_ Heager].
  split.
  - apply Hlazy. right. right. reflexivity.
  - apply Heager. repeat split; discriminate.
Defined.

(** C2, as the code has it.  For a GZIP, ZIP or SNAPPY source, [size()]
    before any read is the estimate, 4 times the compressed size; it is within
    the heuristic multiplier of the exact decompressed size (neither exceeds
    4 times the other) exactly when the decompressed size lies between 1 and
    16 times the compressed size.  No [host_read] ever changes [size()]: a
    [host_read] spanning the whole decompressed content returns that content
    and leaves the object, and so [size()], as it was. *)
Theorem size_is_fixed_at_construction
    (decompress : compression_type -> list byte -> option (list byte))
    (ch_buffer : list byte) (comptype : compression_type) (calls : nat) :
  comptype = GZIP \/ comptype = ZIP \/ comptype = SNAPPY ->
  exists this,
    construct decompress ch_buffer comptype calls = Returns (this, calls)
    /\ size this = estimated_compression_ratio * vec_size ch_buffer
    /\ (forall d,
          decompress comptype ch_buffer = Some d ->
          within_multiplier (size this) (vec_size d)
          <-> vec_size ch_buffer <= vec_size d <= 16 * vec_size ch_buffer)
    /\ (forall cs calls0 reps this' calls',
          run decompress cs this calls0 = Returns (reps, this', calls') ->
          size this' = estimated_compression_ratio * vec_size ch_buffer)
    /\ (forall d calls0,
          decompress comptype ch_buffer = Some d ->
          vec_size d < size_t_modulus ->
          host_read decompress 0 (vec_size d) this calls0
          = Returns (owning_buffer d 0 (vec_size d), this, S calls0)).
Proof.
  intros Hk. eexists.
  split; [exact (construct_lazy decompress ch_buffer comptype calls Hk)|].
  split; [reflexivity|]. split; [|split].
  - intros d _.
    unfold within_multiplier, size, estimated_compression_ratio.
    cbn [_decompressed_ch_buffer_size]. lia.
  - intros cs calls0 reps this' calls' Hrun.
    now rewrite (run_size decompress cs _ _ _ _ _ Hrun).
  - intros d calls0 Hd Hlen.
    pose proof (vec_size_nonneg d) as Hnn.
    match goal with
    | |- host_read _ _ _ ?t _ = _ =>
        rewrite (host_read_fresh decompress t d 0 (vec_size d) calls0
                   eq_refl Hd)
    end.
    rewrite size_t_sub_exact, Z.sub_0_r, Z.min_id by lia.
    rewrite size_t_add_exact by lia.
    now replace (0 + vec_size d <? vec_size d) with false
      by (symmetry; apply Z.ltb_ge; lia).
Qed.

Lemma size_is_fixed_at_construction_witness :
  exists this,
    construct rle_decompress [x03; x61] GZIP 0%nat = Returns (this, 0%nat)
    /\ size this = estimated_compression_ratio * vec_size [x03; x61]
    /\ (forall d,
          rle_decompress GZIP [x03; x61] = Some d ->
          within_multiplier (size this) (vec_size d)
          <-> vec_size [x03; x61] <= vec_size d <= 16 * vec_size [x03; x61])
    /\ (forall cs calls0 reps this' calls',
          run rle_decompress cs this calls0 = Returns (reps, this', calls') ->
          size this' = estimated_compression_ratio * vec_size [x03; x61])
    /\ (forall d calls0,
          rle_decompress GZIP [x03; x61] = Some d ->
          vec_size d < size_t_modulus ->
          host_read rle_decompress 0 (vec_size d) this calls0
          = Returns (owning_buffer d 0 (vec_size d), this, S calls0)).
Proof.
  apply (size_is_fixed_at_construction rle_decompress [x03; x61] GZIP 0%nat).
  left. reflexivity.
Defined.

(** C2 as stated fails in both halves: 2 compressed bytes that decode to 255
    bytes give [size() = 8] before any read, and 255 exceeds 4 times 8; after
    a [host_read] of the whole content [size()] is still 8, where the
    decompressed length is 255. *)
Lemma estimated_size_counterexample :
  let this := {| _ch_buffer := [xff; x61]; _comptype := GZIP;
                 _decompressed_ch_buffer_size := 8;
                 _decompressed_buffer := [] |} in
  construct rle_decompress [xff; x61] GZIP 0%nat = Returns (this, 0%nat)
  /\ rle_decompress GZIP [xff; x61] = Some (repeat x61 255)
  /\ size this = 8
  /\ ~ within_multiplier (size this) (vec_size (repeat x61 255))
  /\ exists b this',
       host_read rle_decompress 0 255 this 0%nat = Returns (b, this', 1%nat)
       /\ buffer_data this' b = Some (repeat x61 255)
       /\ size this' = 8
       /\ size this' <> vec_size (repeat x61 255).
Proof.
  cbv zeta. split; [reflexivity|]. split; [reflexivity|].
  split; [reflexivity|]. split.
  - intros [_ H]. vm_compute in H. apply H. reflexivity.
  - exists (owning_buffer (repeat x61 255) 0 255).
    exists {| _ch_buffer := [xff; x61]; _comptype := GZIP;
              _decompressed_ch_buffer_size := 8;
              _decompressed_buffer := [] |}.
    split; [vm_compute; reflexivity|].
    split; [vm_compute; reflexivity|].
    split; [reflexivity|]. vm_compute. discriminate.
Qed.

(** C4, on the code.  Once a [host_read(offset, size)] has materialized the
    decompressed content, a further [host_read(offset, size)] serves it
    without decompressing, but [host_read(offset, size, dst)] does not look at
    the materialized buffer and calls the decompression primitive again. *)
Theorem host_read_into_decompresses_again :
  let fresh := {| _ch_buffer := [x03; x61]; _comptype := GZIP;
                  _decompressed_ch_buffer_size := 8;
                  _decompressed_buffer := [] |} in
  let cached := {| _ch_buffer := [x03; x61]; _comptype := GZIP;
                   _decompressed_ch_buffer_size := 8;
                   _decompressed_buffer := [x61; x61; x61] |} in
  construct rle_decompress [x03; x61] GZIP 0%nat = Returns (fresh, 0%nat)
  /\ host_read rle_decompress 0 1 fresh 0%nat
     = Returns (non_owning_buffer 0 1, cached, 1%nat)
  /\ host_read rle_decompress 1 1 cached 1%nat
     = Returns (non_owning_buffer 1 1, cached, 1%nat)
  /\ host_read_into rle_decompress 1 1 cached 1%nat
     = Returns (1, [x61], cached, 2%nat)
  /\ run rle_decompress
       [HostRead 0 1; HostReadInto 1 1; HostReadInto 2 1] fresh 0%nat
     = Returns ([Handed (non_owning_buffer 0 1); Copied 1 [x61];
                 Copied 1 [x61]], cached, 3%nat).
Proof. cbv zeta. repeat split. Qed.

(** C9.  The planner's tuning constants. *)
Theorem planner_tuning_constants :
  min_subchunk_size = 10000
  /\ num_subchunks = 10
  /\ max_subchunks_prealloced = 3.
Proof. repeat split. Qed.

(** * Quote normalization *)

(** C6.  The transducer turns the input of [JsonNormalizationTest.ValidOutput]
    into its strict form: the enclosing single quotes become double quotes and
    the double quote between them comes out escaped. *)
Theorem normalize_quotes_test_buffer :
  normalize_quotes test_input = test_output.
Proof. reflexivity. Qed.

Lemma classify_single_quote (b : byte) :
  classify b = SingleQuote -> b = single_quote.
Proof.
  unfold classify.
  destruct (Byte.eqb b single_quote) eqn:E.
  - intros _. now apply Byte.byte_dec_bl.
  - destruct (Byte.eqb b double_quote); [discriminate|].
    destruct (Byte.eqb b backslash); discriminate.
Qed.

Lemma strict_state_step (s : fst_state) (b : byte) :
  strict_state s = true -> b <> single_quote ->
  emit s (classify b) b = [b]
  /\ strict_state (next_state s (classify b)) = true.
Proof.
  intros Hs Hb.
  pose proof (classify_single_quote b) as Hc.
  destruct s; try discriminate; destruct (classify b);
    try (exfalso; now auto); split; reflexivity.
Qed.

Lemma transduce_strict (input : list byte) : forall s,
  strict_state s = true -> ~ In single_quote input ->
  transduce s input = input.
Proof.
  induction input as [|b rest IH]; intros s Hs Hin; simpl; [reflexivity|].
  assert (Hb : b <> single_quote) by (intros ->; apply Hin; now left).
  destruct (strict_state_step s b Hs Hb) as [He Hn].
  rewrite He. simpl. f_equal.
  apply IH; [exact Hn|]. intros H. apply Hin. now right.
Qed.

(** C7.  On a buffer with no single-quote byte, so in particular on strict
    JSON whose strings are all double-quoted, the transducer is the identity;
    running it twice equals running it once. *)
Theorem normalize_quotes_strict_identity (input : list byte) :
  ~ In single_quote input ->
  normalize_quotes input = input
  /\ normalize_quotes (normalize_quotes input) = normalize_quotes input.
Proof.
  intros Hin.
  assert (H : normalize_quotes input = input)
    by (now apply transduce_strict).
  split; [exact H|]. now rewrite !H.
Qed.

Lemma normalize_quotes_strict_identity_witness :
  normalize_quotes test_output = test_output
  /\ normalize_quotes (normalize_quotes test_output)
     = normalize_quotes test_output.
Proof.
  apply (normalize_quotes_strict_identity test_output).
  unfold test_output, single_quote, double_quote, backslash. simpl.
  intros H. repeat (destruct H as [H|H]; [discriminate|]). exact H.
Defined.

(** * Raw ingestion *)

Lemma total_size_nonneg (sources : list (list byte)) :
  0 <= total_size sources.
Proof.
  induction sources as [|src rest IH]; simpl; [lia|].
  pose proof (vec_size_nonneg src). lia.
Qed.

Lemma vec_size_nil {A : Type} : vec_size (@nil A) = 0.
Proof. reflexivity. Qed.

Lemma vec_size_cons {A : Type} (a : A) (v : list A) :
  vec_size (a :: v) = 1 + vec_size v.
Proof. unfold vec_size. simpl length. lia. Qed.

Lemma vec_size_app {A : Type} (u v : list A) :
  vec_size (u ++ v) = vec_size u + vec_size v.
Proof. unfold vec_size. rewrite length_app. lia. Qed.

Lemma vec_size_logical_stream (sources : list (list byte)) :
  vec_size (logical_stream sources) = total_size sources.
Proof.
  unfold logical_stream.
  induction sources as [|src rest IH]; simpl; [reflexivity|].
  now rewrite vec_size_app, IH.
Qed.

Lemma vec_size_content_read (sources : list (list byte))
    (range_offset range_size : Z) :
  0 <= range_offset <= total_size sources -> 0 <= range_size ->
  vec_size (content_read sources range_offset range_size)
  = Z.min range_size (total_size sources - range_offset).
Proof.
  intros Ho Hs. unfold content_read.
  pose proof (vec_size_logical_stream sources) as Hl.
  unfold vec_size in *. rewrite length_firstn, length_skipn. lia.
Qed.

(** The junctions of [source_boundaries] are those met source by source. *)
Lemma boundaries_from_closed_form (sources : list (list byte)) :
  forall start,
    boundaries_from start sources
    = map (fun k => start + vec_size (logical_stream (firstn k sources)))
          (seq 1 (length sources - 1)).
Proof.
  induction sources as [|src rest IH]; intros start; [reflexivity|].
  destruct rest as [|src' rest']; [reflexivity|].
  change (boundaries_from start (src :: src' :: rest'))
    with ((start + vec_size src)
            :: boundaries_from (start + vec_size src) (src' :: rest')).
  rewrite IH.
  replace (length (src :: src' :: rest') - 1)%nat
    with (S (length (src' :: rest') - 1))%nat by (simpl; lia).
  generalize (length (src' :: rest') - 1)%nat. intros n.
  rewrite <- (cons_seq n 1), <- (seq_shift n 1).
  cbn [map]. rewrite map_map. f_equal.
  - unfold logical_stream. simpl. rewrite app_nil_r. reflexivity.
  - apply map_ext. intros k. unfold logical_stream.
    change (firstn (S k) (src :: src' :: rest'))
      with (src :: firstn k (src' :: rest')).
    simpl concat. rewrite vec_size_app. lia.
Qed.

Lemma source_boundaries_from_start (sources : list (list byte)) :
  source_boundaries sources = boundaries_from 0 sources.
Proof.
  rewrite boundaries_from_closed_form. unfold source_boundaries.
  apply map_ext. intros k. lia.
Qed.

(** What [ingest_sources] writes: the part of the stream that overlaps the
    range, and one byte per junction strictly inside it. *)
Lemma vec_size_ingest_sources (delimiter : byte)
    (range_offset range_end : Z) (sources : list (list byte)) :
  forall start,
    vec_size (ingest_sources delimiter sources start range_offset range_end)
    = Z.max 0 (Z.min range_end (start + total_size sources)
               - Z.max range_offset start)
      + vec_size (filter (strictly_inside range_offset range_end)
                    (boundaries_from start sources)).
Proof.
  induction sources as [|src rest IH]; intros start.
  - simpl. unfold vec_size. simpl. lia.
  - cbn [ingest_sources]. cbv zeta.
    rewrite !vec_size_app, IH.
    pose proof (vec_size_nonneg src) as Hsrc.
    pose proof (total_size_nonneg rest) as Hrest.
    cbn [total_size fold_right]. fold (total_size rest).
    assert (Hcontent :
      vec_size
        (if Z.max range_offset start
            <? Z.min range_end (start + vec_size src)
         then firstn
                (Z.to_nat (Z.min range_end (start + vec_size src)
                           - Z.max range_offset start))
                (skipn (Z.to_nat (Z.max range_offset start - start)) src)
         else [])
      = Z.max 0 (Z.min range_end (start + vec_size src)
                 - Z.max range_offset start)).
    { destruct (Z.ltb_spec (Z.max range_offset start)
                  (Z.min range_end (start + vec_size src))) as [Hlt|Hge].
      - rewrite vec_size_slice by lia. lia.
      - unfold vec_size at 1. simpl. lia. }
    rewrite Hcontent.
    destruct rest as [|src' rest'].
    + change (total_size []) with 0.
      cbn [boundaries_from filter]. unfold vec_size in *. cbn [length]. lia.
    + cbn [boundaries_from filter].
      destruct (strictly_inside range_offset range_end (start + vec_size src));
        rewrite ?vec_size_cons; unfold vec_size in *; cbn [length]; lia.
Qed.

Lemma ingest_raw_input_exhausted (delimiter : byte)
    (sources : list (list byte)) (compression : compression_type)
    (range_offset range_size : Z) :
  total_size sources < range_offset ->
  ingest_raw_input delimiter sources compression range_offset range_size
  = Throws.
Proof.
  intros H. unfold ingest_raw_input.
  now replace (total_size sources <? range_offset) with true
    by (symmetry; now apply Z.ltb_lt).
Qed.

(** C8.  For every ordered list of sources and every requested range that
    starts inside their logical stream, [ingest_raw_input] returns a span
    whose size is the number of content bytes read plus one delimiter byte
    for each source boundary strictly inside the range; the size exceeds the
    requested length by at most, and when the stream covers the range by
    exactly, the number of inserted delimiters. *)
Theorem ingest_raw_input_size (delimiter : byte)
    (sources : list (list byte)) (compression : compression_type)
    (range_offset range_size : Z) :
  0 <= range_offset <= total_size sources -> 0 <= range_size ->
  exists filled,
    ingest_raw_input delimiter sources compression range_offset range_size
    = Returns filled
    /\ vec_size filled
       = vec_size (content_read sources range_offset range_size)
         + delimiters_inserted sources range_offset range_size
    /\ vec_size filled
       <= range_size + delimiters_inserted sources range_offset range_size
    /\ (range_offset + range_size <= total_size sources ->
        vec_size filled
        = range_size + delimiters_inserted sources range_offset range_size).
Proof.
  intros Ho Hs. unfold ingest_raw_input.
  replace (total_size sources <? range_offset) with false
    by (symmetry; apply Z.ltb_ge; lia).
  eexists. split; [reflexivity|].
  rewrite vec_size_ingest_sources, vec_size_content_read by assumption.
  unfold delimiters_inserted. rewrite source_boundaries_from_start.
  repeat split; lia.
Qed.

(** Three 2-byte sources, a range of 4 bytes from offset 1: both junctions
    lie strictly inside, and 6 bytes are written. *)
Lemma ingest_raw_input_size_witness :
  ingest_raw_input x0a [[x61; x62]; [x63; x64]; [x65; x66]] NONE 1 4
  = Returns [x62; x0a; x63; x64; x0a; x65]
  /\ exists filled,
       ingest_raw_input x0a [[x61; x62]; [x63; x64]; [x65; x66]] NONE 1 4
       = Returns filled
       /\ vec_size filled
          = vec_size (content_read [[x61; x62]; [x63; x64]; [x65; x66]] 1 4)
            + delimiters_inserted [[x61; x62]; [x63; x64]; [x65; x66]] 1 4
       /\ vec_size filled
          <= 4 + delimiters_inserted [[x61; x62]; [x63; x64]; [x65; x66]] 1 4
       /\ (1 + 4 <= total_size [[x61; x62]; [x63; x64]; [x65; x66]] ->
           vec_size filled
           = 4 + delimiters_inserted
                   [[x61; x62]; [x63; x64]; [x65; x66]] 1 4).
Proof.
  split; [reflexivity|].
  apply (ingest_raw_input_size x0a
           [[x61; x62]; [x63; x64]; [x65; x66]] NONE 1 4).
  - vm_compute. split; discriminate.
  - discriminate.
Defined.

(** * Sequences of reads on a compressed source *)

Lemma size_t_add_nonneg (a b : Z) : 0 <= size_t_add a b.
Proof.
  unfold size_t_add, size_t_wrap, size_t_modulus.
  apply Z.mod_pos_bound. lia.
Qed.

Lemma vec_size_pos_nonempty {A : Type} (v : list A) :
  0 < vec_size v -> v <> [].
Proof. intros H ->. unfold vec_size in H. simpl in H. lia. Qed.

Section CompressedSourceSequences.

Variable decompress : compression_type -> list byte -> option (list byte).

#[local] Abbreviation materializes := (materializes decompress).

Lemma host_read_materializes this offset sz calls b this' calls' :
  host_read decompress offset sz this calls = Returns (b, this', calls') ->
  this' = this \/ materializes this this'.
Proof.
  destruct (_decompressed_buffer this) as [|b0 v] eqn:E.
  - destruct (decompress (_comptype this) (_ch_buffer this)) as [d|] eqn:Hd.
    + rewrite (host_read_fresh decompress this d offset sz calls E Hd).
      destruct (_ <? _) eqn:Hp; intros H; inversion H; subst; auto.
      right. split; [exact E|]. exists d. repeat split; auto.
      apply vec_size_pos_nonempty. apply Z.ltb_lt in Hp.
      pose proof (size_t_add_nonneg offset
                    (Z.min sz (size_t_sub (vec_size d) offset))). lia.
    + intros H.
      assert (Ht : host_read decompress offset sz this calls = Throws)
        by (apply host_read_throws; auto).
      congruence.
  - rewrite host_read_cached by congruence.
    intros H; inversion H; auto.
Qed.

Lemma invoke_materializes c this calls rep this' calls' :
  invoke decompress c this calls = Returns (rep, this', calls') ->
  this' = this \/ materializes this this'.
Proof.
  destruct c as [offset sz|offset sz]; unfold invoke, bind, ret.
  - destruct (host_read_into decompress offset sz this calls)
      as [[[[count copied] this1] calls1]| |] eqn:E; try discriminate.
    apply host_read_into_calls in E. simpl in E. destruct E as [_ E].
    intros H; inversion H; subst; auto.
  - destruct (host_read decompress offset sz this calls)
      as [[[b this1] calls1]| |] eqn:E; try discriminate.
    apply host_read_materializes in E.
    intros H; inversion H; subst; auto.
Qed.

(** Unfolding one step of [run]. *)
Lemma run_cons c cs this calls reps this' calls' :
  run decompress (c :: cs) this calls = Returns (reps, this', calls') ->
  exists rep this1 calls1 reps1,
    invoke decompress c this calls = Returns (rep, this1, calls1)
    /\ run decompress cs this1 calls1 = Returns (reps1, this', calls')
    /\ reps = rep :: reps1.
Proof.
  simpl. unfold bind at 1.
  destruct (invoke decompress c this calls)
    as [[[rep this1] calls1]| |] eqn:Ei; try discriminate.
  unfold bind, ret.
  destruct (run decompress cs this1 calls1)
    as [[[reps1 this2] calls2]| |] eqn:Er; try discriminate.
  intros H; inversion H; subst. do 4 eexists. eauto.
Qed.

Lemma run_cons_returns c cs this calls rep this1 calls1 reps1 this' calls' :
  invoke decompress c this calls = Returns (rep, this1, calls1) ->
  run decompress cs this1 calls1 = Returns (reps1, this', calls') ->
  run decompress (c :: cs) this calls
  = Returns (rep :: reps1, this', calls').
Proof.
  intros Hi Hr. simpl. unfold bind at 1. rewrite Hi.
  unfold bind, ret. now rewrite Hr.
Qed.

Lemma run_materializes cs : forall this calls reps this' calls',
  run decompress cs this calls = Returns (reps, this', calls') ->
  this' = this \/ materializes this this'.
Proof.
  induction cs as [|c cs IH]; intros this calls reps this' calls' Hrun.
  - simpl in Hrun. unfold ret in Hrun. inversion Hrun. now left.
  - apply run_cons in Hrun.
    destruct Hrun as (rep & this1 & calls1 & reps1 & Hi & Hr & _).
    apply invoke_materializes in Hi. apply IH in Hr.
    destruct Hi as [->|Hm]; [exact Hr|].
    destruct Hr as [->|Hm']; [now right|].
    exfalso. destruct Hm as (_ & d & Hne & _ & ->).
    destruct Hm' as (He & _). simpl in He. contradiction.
Qed.


(** Whatever the calls and their arguments, a read call that comes back has
    never changed the compressed region, the kind or the reported size; a
    populated materialized buffer is never replaced or emptied; and an empty
    one is either still empty or now holds the non-empty decompressed
    content. *)
Theorem run_only_fills_materialized_buffer cs this calls reps this' calls' :
  run decompress cs this calls = Returns (reps, this', calls') ->
  _ch_buffer this' = _ch_buffer this
  /\ _comptype this' = _comptype this
  /\ size this' = size this
  /\ (_decompressed_buffer this <> [] -> this' = this)
  /\ (_decompressed_buffer this' = _decompressed_buffer this
      \/ (_decompressed_buffer this = []
          /\ _decompressed_buffer this' <> []
          /\ decompress (_comptype this) (_ch_buffer this)
             = Some (_decompressed_buffer this'))).
Proof.
  intros Hrun. apply run_materializes in Hrun.
  destruct Hrun as [->|(He & d & Hne & Hd & ->)].
  - repeat split; auto.
  - repeat split; try reflexivity.
    + intros H. contradiction.
    + right. simpl. auto.
Qed.

(** *** What a sequence of calls costs *)

Lemma invoke_host_read_cached this offset sz calls :
  _decompressed_buffer this <> [] ->
  invoke decompress (HostRead offset sz) this calls
  = Returns (Handed (non_owning_buffer offset
                       (Z.min sz
                          (size_t_sub (vec_size (_decompressed_buffer this))
                             offset))),
             this, calls).
Proof.
  intros Hne. unfold invoke, bind.
  now rewrite host_read_cached by assumption.
Qed.

(** On a source whose materialized buffer is populated, buffer-returning
    reads never fail, never call the decompression primitive and leave the
    object as it is, whatever the offsets and sizes asked for. *)
Theorem populated_reads_never_decompress this ranges calls :
  _decompressed_buffer this <> [] ->
  run decompress (host_reads ranges) this calls
  = Returns (views_of (_decompressed_buffer this) ranges, this, calls).
Proof.
  intros Hne. induction ranges as [|[offset sz] ranges IH]; [reflexivity|].
  cbn [host_reads views_of map fst snd].
  eapply run_cons_returns; [now apply invoke_host_read_cached|exact IH].
Qed.

Lemma invoke_calls c this calls rep this' calls' :
  invoke decompress c this calls = Returns (rep, this', calls') ->
  if is_host_read_into c then calls' = S calls
  else if vec_empty (_decompressed_buffer this) then calls' = S calls
       else calls' = calls.
Proof.
  destruct c as [offset sz|offset sz]; unfold invoke, bind, ret; simpl.
  - destruct (host_read_into decompress offset sz this calls)
      as [[[[count copied] this1] calls1]| |] eqn:E; try discriminate.
    apply host_read_into_calls in E. destruct E as [-> _].
    intros H; now inversion H.
  - destruct (host_read decompress offset sz this calls)
      as [[[b this1] calls1]| |] eqn:E; try discriminate.
    intros H; inversion H; subst. clear H.
    destruct (_decompressed_buffer this) as [|b0 v] eqn:Ec; simpl.
    + destruct (decompress (_comptype this) (_ch_buffer this)) as [d|] eqn:Hd.
      * rewrite (host_read_fresh decompress this d offset sz calls Ec Hd) in E.
        destruct (_ <? _); now inversion E.
      * assert (Ht : host_read decompress offset sz this calls = Throws)
          by (apply host_read_throws; auto).
        congruence.
    + rewrite host_read_cached in E by congruence. now inversion E.
Qed.

(** A read call that comes back has answered every call, and has invoked the
    decompression primitive once for every [host_read(offset, size, dst)] and
    at most once for every [host_read(offset, size)]; when the materialized
    buffer was populated beforehand, the raw-pointer reads are the only
    decompressions. *)
Theorem decompress_count_bounds cs : forall this calls reps this' calls',
  run decompress cs this calls = Returns (reps, this', calls') ->
  length reps = length cs
  /\ (calls + length (filter is_host_read_into cs) <= calls')%nat
  /\ (calls' <= calls + length cs)%nat
  /\ (_decompressed_buffer this <> [] ->
      calls' = (calls + length (filter is_host_read_into cs))%nat).
Proof.
  induction cs as [|c cs IH]; intros this calls reps this' calls' Hrun.
  - simpl in Hrun. unfold ret in Hrun. inversion Hrun. subst. simpl.
    repeat split; lia.
  - apply run_cons in Hrun.
    destruct Hrun as (rep & this1 & calls1 & reps1 & Hi & Hr & ->).
    pose proof (invoke_calls _ _ _ _ _ _ Hi) as Hc.
    pose proof (invoke_materializes _ _ _ _ _ _ Hi) as Hm.
    destruct (IH _ _ _ _ _ Hr) as (Hlen & Hlo & Hhi & Hpop).
    cbn [filter length].
    split; [now rewrite Hlen|].
    destruct (is_host_read_into c); cbn [length].
    + subst calls1. repeat split; try lia.
      intros Hne. destruct Hm as [->|(He & _)]; [|contradiction].
      rewrite (Hpop Hne). lia.
    + destruct (_decompressed_buffer this) as [|b0 v] eqn:Ec;
        cbn [vec_empty] in Hc; subst calls1.
      * repeat split; try lia. intros Hne. congruence.
      * repeat split; try lia.
        intros _. destruct Hm as [->|(He & _)]; [|congruence].
        rewrite Hpop by congruence. lia.
Qed.

(** *** What a sequence of calls returns *)




(** *** Which reads populate the materialized buffer *)

Lemma host_read_fresh_to_end this d offset sz calls :
  _decompressed_buffer this = [] ->
  decompress (_comptype this) (_ch_buffer this) = Some d ->
  vec_size d < size_t_modulus ->
  0 <= offset <= vec_size d -> vec_size d <= offset + sz ->
  host_read decompress offset sz this calls
  = Returns (owning_buffer d offset (vec_size d - offset), this, S calls).
Proof.
  intros He Hd Hlen Ho Hend.
  rewrite (host_read_fresh decompress this d offset sz calls He Hd).
  rewrite size_t_sub_exact by lia.
  replace (Z.min sz (vec_size d - offset)) with (vec_size d - offset) by lia.
  rewrite size_t_add_exact by lia.
  now replace (offset + (vec_size d - offset) <? vec_size d) with false
    by (symmetry; apply Z.ltb_ge; lia).
Qed.

Lemma host_read_fresh_partial this d offset sz calls :
  _decompressed_buffer this = [] ->
  decompress (_comptype this) (_ch_buffer this) = Some d ->
  vec_size d < size_t_modulus ->
  0 <= offset -> 0 <= sz -> offset + sz < vec_size d ->
  host_read decompress offset sz this calls
  = Returns (non_owning_buffer offset sz,
             set_decompressed_buffer this d, S calls).
Proof.
  intros He Hd Hlen Ho Hs Hend.
  rewrite (host_read_fresh decompress this d offset sz calls He Hd).
  rewrite size_t_sub_exact by lia.
  replace (Z.min sz (vec_size d - offset)) with sz by lia.
  rewrite size_t_add_exact by lia.
  now replace (offset + sz <? vec_size d) with true
    by (symmetry; apply Z.ltb_lt; lia).
Qed.

(** A source whose content is empty never sees a partial read. *)
Lemma host_read_fresh_empty this offset sz calls :
  _decompressed_buffer this = [] ->
  decompress (_comptype this) (_ch_buffer this) = Some [] ->
  host_read decompress offset sz this calls
  = Returns (owning_buffer [] offset (Z.min sz (size_t_sub 0 offset)),
             this, S calls).
Proof.
  intros He Hd.
  rewrite (host_read_fresh decompress this [] offset sz calls He Hd).
  change (vec_size (@nil byte)) with 0.
  pose proof (size_t_add_nonneg offset (Z.min sz (size_t_sub 0 offset))).
  now replace (size_t_add offset (Z.min sz (size_t_sub 0 offset)) <? 0)
    with false by (symmetry; apply Z.ltb_ge; lia).
Qed.

(** On a source with no materialized buffer, buffer-returning reads that
    start within the decompressed content and reach its end never populate
    the buffer: each of them decompresses again and hands the fresh vector
    over, so that [n] such reads cost [n] decompressions.  When the content
    is empty the same holds of every read, whatever its offset and size. *)
Theorem reads_to_the_end_never_cache this d ranges calls :
  _decompressed_buffer this = [] ->
  decompress (_comptype this) (_ch_buffer this) = Some d ->
  vec_size d < size_t_modulus ->
  (Forall (reaches_end d) ranges ->
   run decompress (host_reads ranges) this calls
   = Returns (handovers d ranges, this, (length ranges + calls)%nat))
  /\ (d = [] ->
      run decompress (host_reads ranges) this calls
      = Returns (empty_handovers ranges, this, (length ranges + calls)%nat)).
Proof.
  intros He Hd Hlen. split.
  - intros Hall. revert calls.
    induction Hall as [|[offset sz] ranges [Ho Hend] _ IH]; intros calls;
      [reflexivity|].
    simpl in Ho, Hend.
    cbn [host_reads handovers map fst snd length].
    eapply run_cons_returns.
    + unfold invoke, bind.
      rewrite (host_read_fresh_to_end this d offset sz calls
                 He Hd Hlen Ho Hend).
      reflexivity.
    + fold (host_reads ranges). fold (handovers d ranges).
      rewrite IH. now rewrite Nat.add_succ_r.
  - intros ->. revert calls.
    induction ranges as [|[offset sz] ranges IH]; intros calls;
      [reflexivity|].
    cbn [host_reads empty_handovers map fst snd length].
    eapply run_cons_returns.
    + unfold invoke, bind.
      rewrite (host_read_fresh_empty this offset sz calls He Hd).
      reflexivity.
    + fold (host_reads ranges). fold (empty_handovers ranges).
      rewrite IH. now rewrite Nat.add_succ_r.
Qed.

(** On a source with no materialized buffer, a first buffer-returning read
    that stops short of the end of the content decompresses once and
    populates the buffer; every buffer-returning read after it, whatever its
    range, is served from that buffer: the whole sequence costs exactly one
    decompression. *)
Theorem first_partial_read_pays_once this d offset sz ranges calls :
  _decompressed_buffer this = [] ->
  decompress (_comptype this) (_ch_buffer this) = Some d ->
  0 <= offset -> 0 <= sz ->
  offset + sz < vec_size d -> vec_size d < size_t_modulus ->
  run decompress (HostRead offset sz :: host_reads ranges) this calls
  = Returns (Handed (non_owning_buffer offset sz) :: views_of d ranges,
             set_decompressed_buffer this d, S calls).
Proof.
  intros He Hd Ho Hs Hend Hlen.
  assert (Hne : d <> []) by (apply vec_size_pos_nonempty; lia).
  eapply run_cons_returns.
  - unfold invoke, bind.
    rewrite (host_read_fresh_partial this d offset sz calls
               He Hd Hlen Ho Hs Hend).
    reflexivity.
  - induction ranges as [|[o n] ranges IH]; [reflexivity|].
    cbn [host_reads views_of map fst snd].
    eapply run_cons_returns; [|exact IH].
    now rewrite invoke_host_read_cached by exact Hne.
Qed.

(** *** Sizes and bounds *)

Lemma bytes_at_outside (v : list byte) (offset count : Z) :
  vec_size v < offset -> 0 <= count -> bytes_at v offset count = None.
Proof.
  intros Ho Hc. unfold bytes_at.
  replace (offset + count <=? vec_size v) with false
    by (symmetry; apply Z.leb_gt; lia).
  now rewrite andb_false_r.
Qed.

Lemma clamped_count_nonneg (v : list byte) (offset sz : Z) :
  0 <= sz -> 0 <= Z.min sz (size_t_sub (vec_size v) offset).
Proof.
  intros Hs.
  assert (0 <= size_t_sub (vec_size v) offset).
  { unfold size_t_sub, size_t_wrap, size_t_modulus.
    apply Z.mod_pos_bound. lia. }
  lia.
Qed.

Lemma clamped_count_pos (v : list byte) (offset sz : Z) :
  vec_size v < offset < size_t_modulus -> 0 < sz ->
  0 < Z.min sz (size_t_sub (vec_size v) offset).
Proof.
  intros Ho Hs. pose proof (vec_size_nonneg v) as Hv.
  assert (size_t_sub (vec_size v) offset
          = vec_size v - offset + size_t_modulus).
  { unfold size_t_sub, size_t_wrap. symmetry.
    apply (Z.mod_unique_pos _ _ (-1)); lia. }
  lia.
Qed.

(** There is no bounds check: with an offset beyond the decompressed content
    and a size that is not zero, [host_read(offset, size, dst)] throws nothing
    and copies from outside the decompressed vector, and
    [host_read(offset, size)] returns normally a buffer that points outside
    the content.  A [host_read(offset, 0, dst)] copies nothing and returns 0,
    wherever the offset lies. *)
Theorem read_beyond_content_is_out_of_bounds this d offset sz calls :
  reachable decompress this ->
  decompress (_comptype this) (_ch_buffer this) = Some d ->
  vec_size d < offset < size_t_modulus -> 0 < sz ->
  host_read_into decompress offset sz this calls = Undefined
  /\ (exists b this' calls',
        host_read decompress offset sz this calls = Returns (b, this', calls')
        /\ buffer_data this' b = None)
  /\ host_read_into decompress offset 0 this calls
     = Returns (0, [], this, S calls).
Proof.
  intros Hreach Hd Ho Hs.
  pose proof (clamped_count_pos d offset sz Ho Hs) as Hc.
  split; [|split].
  - unfold host_read_into, bind, call_decompress, memcpy, undefined.
    rewrite Hd.
    replace (Z.min sz (size_t_sub (vec_size d) offset) =? 0) with false
      by (symmetry; apply Z.eqb_neq; lia).
    now rewrite bytes_at_outside by lia.
  - destruct (_decompressed_buffer this) as [|b0 v] eqn:E.
    + rewrite (host_read_fresh decompress this d offset sz calls E Hd).
      destruct (_ <? _); do 3 eexists; (split; [reflexivity|]); simpl;
        apply bytes_at_outside; lia.
    + destruct (reachable_cache_ok _ _ Hreach) as [Hok|Hok]; [congruence|].
      rewrite Hd in Hok. injection Hok as Hok.
      rewrite host_read_cached by congruence.
      do 3 eexists. split; [reflexivity|]. simpl.
      rewrite <- Hok. apply bytes_at_outside; lia.
  - unfold host_read_into, bind, call_decompress, memcpy.
    rewrite Hd.
    pose proof (clamped_count_nonneg d offset 0 (Z.le_refl 0)) as H0.
    replace (Z.min 0 (size_t_sub (vec_size d) offset)) with 0 by lia.
    reflexivity.
Qed.

(** For a kind that is decompressed at construction, [size()] is the exact
    decompressed length, and every read of either overload whose offset does
    not exceed [size()] returns [min(length, size() - offset)] bytes, the ones
    at the offset in the content, and leaves the object as it is. *)
Theorem eager_source_reads_clamp_to_size ch_buffer comptype d calls :
  comptype <> GZIP /\ comptype <> ZIP /\ comptype <> SNAPPY ->
  decompress comptype ch_buffer = Some d ->
  vec_size d < size_t_modulus ->
  exists this,
    construct decompress ch_buffer comptype calls = Returns (this, S calls)
    /\ size this = vec_size d
    /\ forall offset sz calls0,
         0 <= offset <= size this -> 0 <= sz ->
         let count := Z.min sz (size this - offset) in
         let content :=
           firstn (Z.to_nat count) (skipn (Z.to_nat offset) d) in
         host_read_into decompress offset sz this calls0
         = Returns (count, content, this, S calls0)
         /\ exists b calls1,
              host_read decompress offset sz this calls0
              = Returns (b, this, calls1)
              /\ buffer_size b = count
              /\ buffer_data this b = Some content.
Proof.
  intros Hk Hd Hlen.
  pose proof (construct_eager decompress ch_buffer comptype calls Hk) as Hc.
  rewrite Hd in Hc.
  eexists. split; [exact Hc|]. split; [reflexivity|].
  unfold size. cbn [_decompressed_ch_buffer_size].
  intros offset sz calls0 Ho Hs. cbv zeta.
  match goal with
  | |- host_read_into _ _ _ ?t _ = _ /\ _ => set (this := t)
  end.
  assert (Hd' : decompress (_comptype this) (_ch_buffer this) = Some d)
    by exact Hd.
  assert (Hok : cache_ok decompress this) by (right; exact Hd).
  split; [now apply host_read_into_returns|].
  destruct (host_read_returns decompress this d offset sz calls0
              Hok Hd' Ho Hlen Hs)
    as (b & this' & calls1 & Hr & Hsize & Hdata).
  assert (this' = this) as ->.
  { destruct (host_read_materializes _ _ _ _ _ _ _ Hr)
      as [->|(He & d' & Hne & Hd'' & _)]; [reflexivity|].
    exfalso. rewrite Hd' in Hd''. injection Hd'' as <-.
    apply Hne. exact He. }
  exists b, calls1. auto.
Qed.

Lemma firstn_add_skipn {A : Type} (a b : nat) : forall l : list A,
  firstn (a + b) l = firstn a l ++ firstn b (skipn a l).
Proof.
  induction a as [|a IH]; intros l; [reflexivity|].
  destruct l as [|x l]; simpl.
  - now rewrite firstn_nil.
  - now rewrite IH.
Qed.

Lemma skipn_add {A : Type} (a b : nat) : forall l : list A,
  skipn (a + b) l = skipn b (skipn a l).
Proof.
  induction a as [|a IH]; intros l; [reflexivity|].
  destruct l as [|x l]; simpl.
  - now rewrite skipn_nil.
  - apply IH.
Qed.

(** Reading a range in two consecutive chunks gives the bytes of reading it
    in one go: the counts add up and the copied bytes concatenate. *)
Theorem chunked_reads_concatenate this d offset s1 s2 calls :
  decompress (_comptype this) (_ch_buffer this) = Some d ->
  0 <= offset -> 0 <= s1 -> 0 <= s2 ->
  offset + s1 <= vec_size d -> vec_size d < size_t_modulus ->
  exists n2 first second,
    host_read_into decompress offset s1 this calls
    = Returns (s1, first, this, S calls)
    /\ host_read_into decompress (offset + s1) s2 this (S calls)
       = Returns (n2, second, this, S (S calls))
    /\ host_read_into decompress offset (s1 + s2) this calls
       = Returns (s1 + n2, first ++ second, this, S calls).
Proof.
  intros Hd Ho Hs1 Hs2 Hin Hlen.
  exists (Z.min s2 (vec_size d - (offset + s1))).
  exists (firstn (Z.to_nat s1) (skipn (Z.to_nat offset) d)).
  exists (firstn (Z.to_nat (Z.min s2 (vec_size d - (offset + s1))))
            (skipn (Z.to_nat (offset + s1)) d)).
  rewrite !(host_read_into_returns decompress this d) by (auto; lia).
  replace (Z.min s1 (vec_size d - offset)) with s1 by lia.
  replace (Z.min (s1 + s2) (vec_size d - offset))
    with (s1 + Z.min s2 (vec_size d - (offset + s1))) by lia.
  repeat split.
  rewrite !Z2Nat.inj_add by lia.
  now rewrite firstn_add_skipn, skipn_add.
Qed.

(** Round trip with the decompression primitive: a read from offset 0 of at
    least the decompressed length returns the whole decompressed content,
    through either overload. *)
Theorem whole_read_returns_content this d sz calls :
  reachable decompress this ->
  decompress (_comptype this) (_ch_buffer this) = Some d ->
  vec_size d <= sz -> vec_size d < size_t_modulus ->
  host_read_into decompress 0 sz this calls
  = Returns (vec_size d, d, this, S calls)
  /\ exists b this' calls',
       host_read decompress 0 sz this calls = Returns (b, this', calls')
       /\ buffer_size b = vec_size d
       /\ buffer_data this' b = Some d.
Proof.
  intros Hreach Hd Hsz Hlen.
  pose proof (vec_size_nonneg d) as Hnn.
  assert (Hcount : Z.min sz (vec_size d - 0) = vec_size d) by lia.
  assert (Hall : firstn (Z.to_nat (vec_size d)) (skipn (Z.to_nat 0) d) = d).
  { unfold vec_size. rewrite Nat2Z.id. simpl. apply firstn_all. }
  split.
  - rewrite (host_read_into_returns decompress this d 0 sz calls) by (auto; lia).
    now rewrite Hcount, Hall.
  - destruct (host_read_returns decompress this d 0 sz calls
                (reachable_cache_ok _ _ Hreach) Hd)
      as (b & this' & calls' & Hr & Hsize & Hdata); try lia.
    rewrite Hcount in Hsize, Hdata. rewrite Hall in Hdata.
    exists b, this', calls'. auto.
Qed.

End CompressedSourceSequences.

(** * The data generator of the multi-batch test *)

Lemma separated_repeat_doubled (s : list byte) (m : nat) :
  concat (map (cons newline) (repeat (s ++ [newline] ++ s) m))
  = concat (map (cons newline) (repeat s (2 * m))).
Proof.
  induction m as [|m IH]; [reflexivity|].
  replace (2 * S m)%nat with (S (S (2 * m))) by lia.
  cbn [repeat map concat]. rewrite IH.
  simpl. rewrite <- !app_assoc. reflexivity.
Qed.

Lemma join_lines_repeat_doubled (s : list byte) (m : nat) :
  join_lines (repeat (s ++ [newline] ++ s) m)
  = join_lines (repeat s (2 * m)).
Proof.
  destruct m as [|m]; [reflexivity|].
  replace (2 * S m)%nat with (S (S (2 * m))) by lia.
  cbn [repeat join_lines map concat].
  rewrite separated_repeat_doubled.
  simpl. rewrite <- !app_assoc. reflexivity.
Qed.

Lemma size_t_wrap_bounds (z : Z) : 0 <= size_t_wrap z < size_t_modulus.
Proof.
  unfold size_t_wrap, size_t_modulus. apply Z.mod_pos_bound. lia.
Qed.

(** After [log_repetitions] rounds of the loop the string is [2^log_repetitions]
    copies of the original block, one per line group, separated by single
    newlines, its length is [2^log_repetitions * (length + 1) - 1], and the
    row count is the original one times [2^log_repetitions], wrapped to
    [size_t]. *)
Theorem multi_batch_loop_result (log_repetitions : nat) :
  forall (json_string : list byte) (numrows : Z),
    0 <= numrows < size_t_modulus ->
    fst (multi_batch_loop log_repetitions json_string numrows)
    = join_lines (repeat json_string (2 ^ log_repetitions))
    /\ vec_size (fst (multi_batch_loop log_repetitions json_string numrows))
       = 2 ^ Z.of_nat log_repetitions * (vec_size json_string + 1) - 1
    /\ snd (multi_batch_loop log_repetitions json_string numrows)
       = size_t_wrap (numrows * 2 ^ Z.of_nat log_repetitions).
Proof.
  induction log_repetitions as [|k IH]; intros json_string numrows Hn.
  - cbn [multi_batch_loop fst snd Nat.pow repeat join_lines map concat].
    rewrite app_nil_r. change (2 ^ Z.of_nat 0) with 1.
    unfold size_t_wrap. rewrite Z.mul_1_r, Z.mod_small by exact Hn.
    repeat split. lia.
  - cbn [multi_batch_loop].
    destruct (IH (json_string ++ [newline] ++ json_string)
                (size_t_wrap (Z.shiftl numrows 1))
                (size_t_wrap_bounds _)) as (Hs & Hl & Hr).
    rewrite Hl, Hs, Hr. clear Hs Hl Hr IH.
    rewrite Nat2Z.inj_succ, Z.pow_succ_r by lia.
    split; [|split].
    + rewrite join_lines_repeat_doubled. reflexivity.
    + rewrite !vec_size_app. change (vec_size [newline]) with 1. lia.
    + rewrite Z.shiftl_mul_pow2 by lia. change (2 ^ 1) with 2.
      unfold size_t_wrap. rewrite Z.mul_mod_idemp_l
        by (unfold size_t_modulus; lia).
      f_equal. lia.
Qed.

(** * The theorems on sequences of reads, at concrete sources *)

Lemma sample_lazy_reachable : reachable rle_decompress sample_lazy.
Proof.
  apply (reach_construct rle_decompress [x03; x61] GZIP 0%nat _ 0%nat).
  reflexivity.
Qed.

Lemma sample_populated_reachable : reachable rle_decompress sample_populated.
Proof.
  apply (reach_invoke rle_decompress sample_lazy (HostRead 0 1) 0%nat
           (Handed (non_owning_buffer 0 1)) _ 1%nat).
  - apply sample_lazy_reachable.
  - reflexivity.
Qed.

Lemma run_only_fills_materialized_buffer_witness :
  _ch_buffer sample_populated = _ch_buffer sample_lazy
  /\ _comptype sample_populated = _comptype sample_lazy
  /\ size sample_populated = size sample_lazy
  /\ (_decompressed_buffer sample_lazy <> [] ->
      sample_populated = sample_lazy)
  /\ (_decompressed_buffer sample_populated
      = _decompressed_buffer sample_lazy
      \/ (_decompressed_buffer sample_lazy = []
          /\ _decompressed_buffer sample_populated <> []
          /\ rle_decompress (_comptype sample_lazy) (_ch_buffer sample_lazy)
             = Some (_decompressed_buffer sample_populated))).
Proof.
  apply (run_only_fills_materialized_buffer rle_decompress
           [HostRead 0 1; HostReadInto 1 1] sample_lazy 0%nat
           [Handed (non_owning_buffer 0 1); Copied 1 [x61]]
           sample_populated 2%nat).
  reflexivity.
Defined.

Lemma populated_reads_never_decompress_witness :
  run rle_decompress (host_reads [(0, 1); (7, 2)]) sample_populated 5%nat
  = Returns (views_of [x61; x61; x61] [(0, 1); (7, 2)],
             sample_populated, 5%nat).
Proof.
  apply (populated_reads_never_decompress rle_decompress sample_populated
           [(0, 1); (7, 2)] 5%nat).
  discriminate.
Defined.

Lemma decompress_count_bounds_witness :
  length [Handed (non_owning_buffer 0 1); Copied 1 [x61];
          Handed (non_owning_buffer 2 1)]
  = length [HostRead 0 1; HostReadInto 1 1; HostRead 2 1]
  /\ (0 + length (filter is_host_read_into
                    [HostRead 0 1; HostReadInto 1 1; HostRead 2 1]) <= 2)%nat
  /\ (2 <= 0 + length [HostRead 0 1; HostReadInto 1 1; HostRead 2 1])%nat
  /\ (_decompressed_buffer sample_lazy <> [] ->
      2%nat
      = (0 + length (filter is_host_read_into
                       [HostRead 0 1; HostReadInto 1 1; HostRead 2 1]))%nat).
Proof.
  apply (decompress_count_bounds rle_decompress
           [HostRead 0 1; HostReadInto 1 1; HostRead 2 1] sample_lazy 0%nat
           [Handed (non_owning_buffer 0 1); Copied 1 [x61];
            Handed (non_owning_buffer 2 1)]
           sample_populated 2%nat).
  reflexivity.
Defined.


Lemma reads_to_the_end_never_cache_witness :
  run rle_decompress (host_reads [(0, 3); (1, 9); (3, 0)]) sample_lazy 0%nat
  = Returns (handovers [x61; x61; x61] [(0, 3); (1, 9); (3, 0)],
             sample_lazy, 3%nat)
  /\ run rle_decompress (host_reads [(0, 4); (1, 2)]) sample_empty 0%nat
     = Returns ([Handed (owning_buffer [] 0 0);
                 Handed (owning_buffer [] 1 2)],
                sample_empty, 2%nat).
Proof.
  destruct (reads_to_the_end_never_cache rle_decompress sample_lazy
              [x61; x61; x61] [(0, 3); (1, 9); (3, 0)] 0%nat
              eq_refl eq_refl eq_refl) as [Hend _].
  destruct (reads_to_the_end_never_cache rle_decompress sample_empty
              [] [(0, 4); (1, 2)] 0%nat
              eq_refl eq_refl eq_refl) as [_ Hempty].
  split.
  - apply Hend. repeat constructor; simpl; discriminate.
  - apply Hempty. reflexivity.
Defined.

Lemma first_partial_read_pays_once_witness :
  run rle_decompress (HostRead 1 1 :: host_reads [(0, 3); (2, 1)])
    sample_lazy 0%nat
  = Returns (Handed (non_owning_buffer 1 1)
               :: views_of [x61; x61; x61] [(0, 3); (2, 1)],
             sample_populated, 1%nat).
Proof.
  apply (first_partial_read_pays_once rle_decompress sample_lazy
           [x61; x61; x61] 1 1 [(0, 3); (2, 1)] 0%nat);
    try reflexivity; discriminate.
Defined.

Lemma read_beyond_content_is_out_of_bounds_witness :
  host_read_into rle_decompress 5 1 sample_populated 1%nat = Undefined
  /\ (exists b this' calls',
        host_read rle_decompress 5 1 sample_populated 1%nat
        = Returns (b, this', calls')
        /\ buffer_data this' b = None)
  /\ host_read_into rle_decompress 5 0 sample_populated 1%nat
     = Returns (0, [], sample_populated, 2%nat).
Proof.
  apply (read_beyond_content_is_out_of_bounds rle_decompress
           sample_populated [x61; x61; x61] 5 1 1%nat).
  - apply sample_populated_reachable.
  - reflexivity.
  - split; reflexivity.
  - reflexivity.
Defined.

Lemma eager_source_reads_clamp_to_size_witness :
  exists this,
    construct rle_decompress [x03; x61] OTHER 0%nat = Returns (this, 1%nat)
    /\ size this = vec_size [x61; x61; x61]
    /\ forall offset sz calls0,
         0 <= offset <= size this -> 0 <= sz ->
         let count := Z.min sz (size this - offset) in
         let content :=
           firstn (Z.to_nat count)
             (skipn (Z.to_nat offset) [x61; x61; x61]) in
         host_read_into rle_decompress offset sz this calls0
         = Returns (count, content, this, S calls0)
         /\ exists b calls1,
              host_read rle_decompress offset sz this calls0
              = Returns (b, this, calls1)
              /\ buffer_size b = count
              /\ buffer_data this b = Some content.
Proof.
  apply (eager_source_reads_clamp_to_size rle_decompress
           [x03; x61] OTHER [x61; x61; x61] 0%nat).
  - repeat split; discriminate.
  - reflexivity.
  - reflexivity.
Defined.

Lemma chunked_reads_concatenate_witness :
  exists n2 first second,
    host_read_into rle_decompress 0 2 sample_lazy 0%nat
    = Returns (2, first, sample_lazy, 1%nat)
    /\ host_read_into rle_decompress (0 + 2) 4 sample_lazy 1%nat
       = Returns (n2, second, sample_lazy, 2%nat)
    /\ host_read_into rle_decompress 0 (2 + 4) sample_lazy 0%nat
       = Returns (2 + n2, first ++ second, sample_lazy, 1%nat).
Proof.
  apply (chunked_reads_concatenate rle_decompress sample_lazy
           [x61; x61; x61] 0 2 4 0%nat);
    try reflexivity; discriminate.
Defined.

Lemma whole_read_returns_content_witness :
  host_read_into rle_decompress 0 10 sample_lazy 0%nat
  = Returns (vec_size [x61; x61; x61], [x61; x61; x61], sample_lazy, 1%nat)
  /\ exists b this' calls',
       host_read rle_decompress 0 10 sample_lazy 0%nat
       = Returns (b, this', calls')
       /\ buffer_size b = vec_size [x61; x61; x61]
       /\ buffer_data this' b = Some [x61; x61; x61].
Proof.
  apply (whole_read_returns_content rle_decompress sample_lazy
           [x61; x61; x61] 10 0%nat).
  - apply sample_lazy_reachable.
  - reflexivity.
  - discriminate.
  - reflexivity.
Defined.

Lemma multi_batch_loop_result_witness :
  fst (multi_batch_loop 2 [x7b; x7d] 4)
  = join_lines (repeat [x7b; x7d] (2 ^ 2))
  /\ vec_size (fst (multi_batch_loop 2 [x7b; x7d] 4))
     = 2 ^ Z.of_nat 2 * (vec_size [x7b; x7d] + 1) - 1
  /\ snd (multi_batch_loop 2 [x7b; x7d] 4)
     = size_t_wrap (4 * 2 ^ Z.of_nat 2).
Proof.
  apply (multi_batch_loop_result 2 [x7b; x7d] 4).
  split; [discriminate|reflexivity].
Defined.

(** * Undecodable input *)

(** When the decompression primitive rejects the compressed region, a source
    of a kind decompressed at construction is never built, whereas a GZIP, ZIP
    or SNAPPY source is built, reports what [estimate_uncompressed_size]
    gave, and fails on the first read of either overload, whatever range is
    asked for. *)
Theorem undecodable_source_fails_at_first_use
    (decompress : compression_type -> list byte -> option (list byte))
    (ch_buffer : list byte) (comptype : compression_type) (calls : nat) :
  decompress comptype ch_buffer = None ->
  (comptype <> GZIP /\ comptype <> ZIP /\ comptype <> SNAPPY ->
   construct decompress ch_buffer comptype calls = Throws)
  /\ (comptype = GZIP \/ comptype = ZIP \/ comptype = SNAPPY ->
      exists this,
        construct decompress ch_buffer comptype calls = Returns (this, calls)
        /\ size this = estimate_uncompressed_size comptype ch_buffer
        /\ forall c cs calls0,
             run decompress (c :: cs) this calls0 = Throws).
Proof.
  intros Hd. split; intros Hk.
  - rewrite (construct_eager decompress ch_buffer comptype calls Hk).
    now rewrite Hd.
  - eexists.
    split; [exact (construct_lazy decompress ch_buffer comptype calls Hk)|].
    split; [reflexivity|].
    intros c cs calls0. cbn [run]. unfold bind at 1.
    match goal with
    | |- match invoke _ _ ?t _ with _ => _ end = _ => set (this := t)
    end.
    assert (Hi : invoke decompress c this calls0 = Throws).
    { destruct c as [offset sz|offset sz]; unfold invoke, bind.
      - assert (H : host_read_into decompress offset sz this calls0 = Throws)
          by (apply host_read_into_throws; exact Hd).
        now rewrite H.
      - assert (H : host_read decompress offset sz this calls0 = Throws)
          by (apply host_read_throws; split; [reflexivity|exact Hd]).
        now rewrite H. }
    now rewrite Hi.
Qed.

(** A lone repetition count is malformed run-length data. *)
Lemma undecodable_source_fails_at_first_use_witness :
  construct rle_decompress [x03] OTHER 0%nat = Throws
  /\ exists this,
       construct rle_decompress [x03] SNAPPY 0%nat = Returns (this, 0%nat)
       /\ size this = estimate_uncompressed_size SNAPPY [x03]
       /\ forall c cs calls0,
            run rle_decompress (c :: cs) this calls0 = Throws.
Proof.
  destruct (undecodable_source_fails_at_first_use
              rle_decompress [x03] OTHER 0%nat eq_refl) as [Heager _].
  destruct (undecodable_source_fails_at_first_use
              rle_decompress [x03] SNAPPY 0%nat eq_refl) as [_ Hlazy].
  split.
  - apply Heager. repeat split; discriminate.
  - apply Hlazy. right. right. reflexivity.
Defined.
